(** * strview: a string view over C character data

    Shallow embedding of [strview.c] / [strview.h].

    A [strview_t] is the C struct [{const char* data; int size;}].  Pointers
    are addresses in [Z] with [NULL = 0]; the character storage is a total
    map from addresses to [char] values, so that the byte under a view's
    end (read by [strview_split_line]) is defined.  [int] arithmetic is
    written with its 32-bit two's complement wrap-around.  A [strview_t*]
    argument is an [option strview_t] ([None] is the null pointer) and the
    function returns the new contents of the pointee next to its result.
    The [while] loops of the source are fixpoints on a step budget computed
    from the view's extent; [None] means the loop left that extent (a view
    with a negative size), where the C program has no defined result. *)

From Stdlib Require Import ZArith List Bool Lia.
Import ListNotations.
Open Scope Z_scope.

(** ** Machine integers, pointers and memory *)

Definition char := Z.
Definition ptr := Z.
Definition mem := ptr -> char.

Definition NULL : ptr := 0.

Definition INT_MIN : Z := -2147483648.
Definition INT_MAX : Z := 2147483647.

(** Reduction of a mathematical integer to the value a 32-bit [int] holds. *)
Definition wrap_int (z : Z) : Z := (z + 2147483648) mod 4294967296 - 2147483648.

Definition int_add (a b : Z) : Z := wrap_int (a + b).
Definition int_sub (a b : Z) : Z := wrap_int (a - b).

Definition in_int (z : Z) : Prop := INT_MIN <= z <= INT_MAX.

(** Conversion of an [int] to [size_t] (64-bit), as done when a size is
    handed to [memcmp]. *)
Definition to_size_t (z : Z) : nat := Z.to_nat (z mod 18446744073709551616).

Definition CR : char := 13.
Definition LF : char := 10.

(** [toupper] of the C locale. *)
Definition toupper (c : Z) : Z := if (97 <=? c) && (c <=? 122) then c - 32 else c.

(** A small error monad for the budgeted loops. *)
Notation "'do' x <- a ; b" :=
  (match a with Some x => b | None => None end)
  (at level 10, x pattern, a at level 100, b at level 200).

(** ** The view type *)

Record strview_t : Set := mk_strview { data : ptr; size : Z }.

Definition STRVIEW_INVALID : strview_t := {| data := NULL; size := 0 |}.

Definition CASE_SENSETIVE : bool := true.
Definition NOT_CASE_SENSETIVE : bool := false.

Definition ptr_is_null (p : ptr) : bool := p =? NULL.

(** The characters a view spans, read from the storage. *)
Fixpoint read (m : mem) (p : ptr) (n : nat) : list char :=
  match n with
  | O => []
  | S n' => m p :: read m (p + 1) n'
  end.

Definition content (m : mem) (v : strview_t) : list char :=
  read m (data v) (Z.to_nat (size v)).

(** The three semantic states of a view: Invalid is [{NULL, 0}], a valid
    view has a non-null address and a non-negative [int] size. *)
Definition valid_view (v : strview_t) : Prop :=
  0 < data v /\ 0 <= size v <= INT_MAX.

Definition wf_view (v : strview_t) : Prop :=
  v = STRVIEW_INVALID \/ valid_view v.

(** [pos] spans bytes of [src]. *)
Definition span_inside (pos src : strview_t) : Prop :=
  data src <= data pos /\ data pos + size pos <= data src + size src.

(** ** Library functions of <string.h> *)

(** [memcmp]: bytes compared as [unsigned char]; the sign of the result is
    what C specifies. *)
Fixpoint memcmp (m : mem) (a b : ptr) (n : nat) : Z :=
  match n with
  | O => 0
  | S n' =>
      let x := m a mod 256 in
      let y := m b mod 256 in
      if x =? y then memcmp m (a + 1) (b + 1) n' else x - y
  end.

(** [strlen], scanning at most [fuel] bytes. *)
Fixpoint strlen (fuel : nat) (m : mem) (p : ptr) : option Z :=
  match fuel with
  | O => None
  | S f => if m p =? 0 then Some 0 else do n <- strlen f m (p + 1); Some (n + 1)
  end.

(** ** Private helpers *)

Fixpoint memcmp_nocase (m : mem) (a b : ptr) (n : nat) : Z :=
  match n with
  | O => 0
  | S n' =>
      let r := int_sub (toupper (m a mod 4294967296)) (toupper (m b mod 4294967296)) in
      if r =? 0 then memcmp_nocase m (a + 1) (b + 1) n' else r
  end.

Fixpoint contains_char_loop (fuel : nat) (m : mem) (p end_ : ptr) (c : char)
    (case_sensetive : bool) : option bool :=
  match fuel with
  | O => None
  | S f =>
      if p =? end_ then Some false
      else
        let found :=
          if case_sensetive then m p =? c else toupper (m p) =? toupper c in
        if found then Some true
        else contains_char_loop f m (p + 1) end_ c case_sensetive
  end.

Definition contains_char (m : mem) (str : strview_t) (c : char)
    (case_sensetive : bool) : option bool :=
  contains_char_loop (S (Z.to_nat (size str))) m (data str)
    (data str + size str) c case_sensetive.

Definition split_index (sv : strview_t) (index : Z) : strview_t * strview_t :=
  let remainder := sv in
  let neg := index <? 0 in
  let index := if neg then int_add (size sv) index else index in
  let index := if index <? 0 then 0 else index in
  let index := if size sv <? index then size sv else index in
  let result := {| data := data remainder; size := index |} in
  let remainder :=
    {| data := data remainder + index; size := int_sub (size remainder) index |} in
  if negb neg then (result, remainder) else (remainder, result).

(** The forward scan of [split_first_delimeter]: the pair is [(found, ptr)]
    at loop exit. *)
Fixpoint first_delimeter_loop (fuel : nat) (m : mem) (p end_ : ptr)
    (delimiters : strview_t) (case_sensetive : bool) : option (bool * ptr) :=
  match fuel with
  | O => None
  | S f =>
      if p =? end_ then Some (false, p)
      else
        do found <- contains_char m delimiters (m p) case_sensetive;
        if (found : bool) then Some (true, p)
        else first_delimeter_loop f m (p + 1) end_ delimiters case_sensetive
  end.

Definition split_first_delimeter (m : mem) (sv : strview_t)
    (delimiters : strview_t) (case_sensetive : bool)
    : option (strview_t * strview_t) :=
  do fp <-
    (if negb (ptr_is_null (data sv)) && negb (ptr_is_null (data delimiters))
     then first_delimeter_loop (S (Z.to_nat (size sv))) m (data sv)
            (data sv + size sv) delimiters case_sensetive
     else Some (false, data sv));
  let '(found, p) := fp in
  if (found : bool) then
    let result := {| data := data sv; size := wrap_int (p - data sv) |} in
    let sz := int_sub (size sv) (size result) in
    let sz := int_sub sz 1 in
    Some (result, {| data := if sz =? 0 then p else p + 1; size := sz |})
  else Some (sv, STRVIEW_INVALID).

(** The backward scan of [split_last_delimeter]. *)
Fixpoint last_delimeter_loop (fuel : nat) (m : mem) (p stop : ptr)
    (delimiters : strview_t) (case_sensetive : bool) : option (bool * ptr) :=
  match fuel with
  | O => None
  | S f =>
      if p =? stop then Some (false, p)
      else
        do found <- contains_char m delimiters (m p) case_sensetive;
        if (found : bool) then Some (true, p)
        else last_delimeter_loop f m (p - 1) stop delimiters case_sensetive
  end.

Definition split_last_delimeter (m : mem) (sv : strview_t)
    (delimiters : strview_t) (case_sensetive : bool)
    : option (strview_t * strview_t) :=
  do fp <-
    (if negb (ptr_is_null (data sv)) && negb (size sv =? 0)
        && negb (ptr_is_null (data delimiters))
     then last_delimeter_loop (S (Z.to_nat (size sv))) m
            (data sv + int_sub (size sv) 1) (data sv - 1) delimiters
            case_sensetive
     else Some (false, data sv));
  let '(found, p) := fp in
  if (found : bool) then
    let rsize := wrap_int (data sv + size sv - p) in
    let ssize := int_sub (size sv) rsize in
    let rsize := int_sub rsize 1 in
    Some ({| data := if rsize =? 0 then p else p + 1; size := rsize |},
          {| data := data sv; size := ssize |})
  else Some (sv, STRVIEW_INVALID).

(** ** Public functions *)

Definition cstr (fuel : nat) (m : mem) (c_str : ptr) : option strview_t :=
  if ptr_is_null c_str then Some STRVIEW_INVALID
  else do n <- strlen fuel m c_str; Some {| data := c_str; size := n |}.

Definition strview_is_valid (str : strview_t) : bool :=
  negb (ptr_is_null (data str)).

Definition strview_swap (a b : strview_t) : strview_t * strview_t := (b, a).

Definition strview_is_match (m : mem) (str1 str2 : strview_t) : bool :=
  (size str1 =? size str2)
  && ((data str1 =? data str2)
      || (memcmp m (data str1) (data str2) (to_size_t (size str1)) =? 0)).

Definition strview_is_match_nocase (m : mem) (str1 str2 : strview_t) : bool :=
  (size str1 =? size str2)
  && ((data str1 =? data str2)
      || (memcmp_nocase m (data str1) (data str2) (to_size_t (size str1)) =? 0)).

Definition strview_starts_with (m : mem) (str1 str2 : strview_t) : bool :=
  if negb (strview_is_valid str2) then negb (strview_is_valid str1)
  else
    (size str2 <=? size str1)
    && ((data str1 =? data str2)
        || (memcmp m (data str1) (data str2) (to_size_t (size str2)) =? 0)).

Definition strview_compare (m : mem) (str1 str2 : strview_t) : Z :=
  let compare_size := if size str1 <? size str2 then size str1 else size str2 in
  let result :=
    if compare_size =? 0 then 0
    else memcmp m (data str1) (data str2) (to_size_t compare_size) in
  if (result =? 0) && negb (size str1 =? size str2)
  then (if size str2 <? size str1 then 1 else -1)
  else result.

Definition strview_sub (str : strview_t) (begin end_ : Z) : strview_t :=
  let result := {| data := data str; size := 0 |} in
  if negb (ptr_is_null (data str)) && negb (size str =? 0) then
    let begin := if begin <? 0 then int_add (size str) begin else begin in
    let end_ := if end_ <? 0 then int_add (size str) end_ else end_ in
    if (begin <=? end_) && (begin <? size str) && (0 <=? end_) then
      let begin := if begin <? 0 then 0 else begin in
      let end_ := if size str <? end_ then size str else end_ in
      {| data := data str + begin; size := int_sub end_ begin |}
    else {| data := NULL; size := size result |}
  else result.

(** The forward scan of [strview_find_first]: [(found, remaining_hay)] at
    loop exit. *)
Fixpoint find_first_loop (fuel : nat) (m : mem) (remaining_hay hay_end : ptr)
    (needle : strview_t) : option (bool * ptr) :=
  match fuel with
  | O => None
  | S f =>
      if size needle <=? hay_end - remaining_hay then
        if memcmp m remaining_hay (data needle) (to_size_t (size needle)) =? 0
        then Some (true, remaining_hay)
        else find_first_loop f m (remaining_hay + 1) hay_end needle
      else Some (false, remaining_hay)
  end.

Definition strview_find_first (m : mem) (haystack needle : strview_t)
    : option strview_t :=
  do fp <-
    (if negb (ptr_is_null (data haystack)) && negb (ptr_is_null (data needle))
     then find_first_loop (S (S (Z.to_nat (size haystack)))) m (data haystack)
            (data haystack + size haystack) needle
     else Some (false, data haystack));
  let '(found, remaining_hay) := fp in
  if (found : bool) then Some {| data := remaining_hay; size := size needle |}
  else Some STRVIEW_INVALID.

(** The backward scan of [strview_find_last]. *)
Fixpoint find_last_loop (fuel : nat) (m : mem) (remaining_hay hay : ptr)
    (needle : strview_t) : option (bool * ptr) :=
  match fuel with
  | O => None
  | S f =>
      if hay <=? remaining_hay then
        if memcmp m remaining_hay (data needle) (to_size_t (size needle)) =? 0
        then Some (true, remaining_hay)
        else find_last_loop f m (remaining_hay - 1) hay needle
      else Some (false, remaining_hay)
  end.

Definition strview_find_last (m : mem) (haystack needle : strview_t)
    : option strview_t :=
  let remaining_hay := data haystack + int_sub (size haystack) (size needle) in
  do fp <-
    (if negb (ptr_is_null (data haystack)) && negb (ptr_is_null (data needle))
     then find_last_loop (S (S (Z.to_nat (remaining_hay - data haystack)))) m
            remaining_hay (data haystack) needle
     else Some (false, remaining_hay));
  let '(found, remaining_hay) := fp in
  if (found : bool) then Some {| data := remaining_hay; size := size needle |}
  else Some STRVIEW_INVALID.

Definition strview_contains (m : mem) (haystack needle : strview_t)
    : option bool :=
  do r <- strview_find_first m haystack needle; Some (strview_is_valid r).

(** The splitters take a [strview_t*]; the second component of the result
    is the pointee after the call. *)
Definition strview_split_first_delimeter (m : mem)
    (strview_ptr : option strview_t) (delimiters : strview_t)
    : option (strview_t * option strview_t) :=
  match strview_ptr with
  | Some sv =>
      do rs <- split_first_delimeter m sv delimiters CASE_SENSETIVE;
      Some (fst rs, Some (snd rs))
  | None => Some (STRVIEW_INVALID, None)
  end.

Definition strview_split_first_delimiter_nocase (m : mem)
    (strview_ptr : option strview_t) (delimiters : strview_t)
    : option (strview_t * option strview_t) :=
  match strview_ptr with
  | Some sv =>
      do rs <- split_first_delimeter m sv delimiters NOT_CASE_SENSETIVE;
      Some (fst rs, Some (snd rs))
  | None => Some (STRVIEW_INVALID, None)
  end.

Definition strview_split_last_delimeter (m : mem)
    (strview_ptr : option strview_t) (delimiters : strview_t)
    : option (strview_t * option strview_t) :=
  match strview_ptr with
  | Some sv =>
      do rs <- split_last_delimeter m sv delimiters CASE_SENSETIVE;
      Some (fst rs, Some (snd rs))
  | None => Some (STRVIEW_INVALID, None)
  end.

Definition strview_split_last_delimeter_nocase (m : mem)
    (strview_ptr : option strview_t) (delimiters : strview_t)
    : option (strview_t * option strview_t) :=
  match strview_ptr with
  | Some sv =>
      do rs <- split_last_delimeter m sv delimiters NOT_CASE_SENSETIVE;
      Some (fst rs, Some (snd rs))
  | None => Some (STRVIEW_INVALID, None)
  end.

Definition strview_split_index (strview_ptr : option strview_t) (index : Z)
    : strview_t * option strview_t :=
  match strview_ptr with
  | Some sv => let '(result, sv') := split_index sv index in (result, Some sv')
  | None => (STRVIEW_INVALID, None)
  end.

Definition strview_pop_first_char (m : mem) (strview_ptr : option strview_t)
    : char * option strview_t :=
  match strview_ptr with
  | Some sv =>
      if negb (size sv =? 0) then
        let '(result, sv') := split_index sv 1 in (m (data result), Some sv')
      else (0, Some sv)
  | None => (0, None)
  end.

(** [pop_src] is [strview_pop_first_char(&src)] on the local [src] of
    [strview_split_line], whose returned character is dropped. *)
Definition pop_src (m : mem) (src : strview_t) : strview_t :=
  match snd (strview_pop_first_char m (Some src)) with
  | Some src' => src'
  | None => src
  end.

(** [strview_split_line]; [lit] is the address of the string literal
    ["\r\n"] handed to [cstr], [eol] the optional [char*] with its pointee.
    The result is [(result, *strview_ptr, *eol)]. *)
Definition strview_split_line (m : mem) (lit : ptr)
    (strview_ptr : option strview_t) (eol : option char)
    : option (strview_t * option strview_t * option char) :=
  match strview_ptr with
  | None => Some (STRVIEW_INVALID, None, eol)
  | Some sv =>
      if size sv =? 0 then Some (STRVIEW_INVALID, Some sv, eol)
      else
        let src := sv in
        let src :=
          match eol with
          | Some e =>
              if negb (e =? 0) && (e + m (data src) =? CR + LF)
              then pop_src m src else src
          | None => src
          end in
        do delimiters <- cstr 3 m lit;
        do rs <- strview_split_first_delimeter m (Some src) delimiters;
        let result := fst rs in
        let src := match snd rs with Some s => s | None => src end in
        if strview_is_valid src then
          let e := m (data result + size result) in
          let '(src, e) :=
            if e + m (data src) =? CR + LF then (pop_src m src, 0)
            else (src, e) in
          Some (result, Some src,
                match eol with Some _ => Some e | None => None end)
        else Some (STRVIEW_INVALID, Some result, eol)
  end.

Definition strview_split_left (strview_ptr : option strview_t) (pos : strview_t)
    : strview_t * option strview_t :=
  match strview_ptr with
  | Some sv =>
      if strview_is_valid sv && strview_is_valid pos
         && (data sv <=? data pos) && (data pos <=? data sv + size sv)
      then let '(result, sv') := split_index sv (wrap_int (data pos - data sv)) in
           (result, Some sv')
      else (STRVIEW_INVALID, Some sv)
  | None => (STRVIEW_INVALID, None)
  end.

Definition strview_split_right (strview_ptr : option strview_t) (pos : strview_t)
    : strview_t * option strview_t :=
  match strview_ptr with
  | Some sv =>
      if strview_is_valid sv && strview_is_valid pos then
        let src := sv in
        let split_point := data pos + size pos in
        let '(result, src) :=
          if (data src <=? split_point) && (split_point <=? data src + size src)
          then
            let '(result, src) :=
              split_index src (wrap_int (split_point - data src)) in
            strview_swap result src
          else (STRVIEW_INVALID, src) in
        (result, Some src)
      else (STRVIEW_INVALID, Some sv)
  | None => (STRVIEW_INVALID, None)
  end.

(** ** Further public functions *)

(** [memcpy] on regions that do not overlap, as C requires of its caller:
    the [n] bytes at [dst] become the bytes at [src]. *)
Definition memcpy (m : mem) (dst src : ptr) (n : Z) : mem :=
  fun a => if (dst <=? a) && (a <? dst + n) then m (src + (a - dst)) else m a.

(** The assignment [*p = c]. *)
Definition store (m : mem) (p : ptr) (c : char) : mem :=
  fun a => if a =? p then c else m a.

(** [strview_to_cstr]; [dst_size] is a [size_t], a [Z] in
    [0, 2^64).  The result is the returned pointer and the storage after
    the call. *)
Definition strview_to_cstr (m : mem) (dst : ptr) (dst_size : Z)
    (str : strview_t) : ptr * mem :=
  let src_size := if size str <? 0 then 0 else size str in
  if negb (dst_size =? 0) && negb (ptr_is_null dst) then
    let copy_size :=
      if (dst_size - 1) mod 18446744073709551616 <? src_size
      then (dst_size - 1) mod 18446744073709551616 else src_size in
    (dst, store (memcpy m dst (data str) copy_size) (dst + copy_size) 0)
  else (dst, m).
(* The source's [str.size = 0] for a negative size changes a local that is
   not read again. *)

Definition strview_starts_with_nocase (m : mem) (str1 str2 : strview_t) : bool :=
  if negb (strview_is_valid str2) then negb (strview_is_valid str1)
  else
    (size str2 <=? size str1)
    && ((data str1 =? data str2)
        || (memcmp_nocase m (data str1) (data str2) (to_size_t (size str2))
            =? 0)).

Fixpoint trim_start_loop (fuel : nat) (m : mem) (str chars_to_trim : strview_t)
    : option strview_t :=
  match fuel with
  | O => None
  | S f =>
      if size str =? 0 then Some str
      else
        do found <- contains_char m chars_to_trim (m (data str)) CASE_SENSETIVE;
        if (found : bool) then
          trim_start_loop f m
            {| data := data str + 1; size := int_sub (size str) 1 |}
            chars_to_trim
        else Some str
  end.

Definition strview_trim_start (m : mem) (str chars_to_trim : strview_t)
    : option strview_t :=
  trim_start_loop (S (Z.to_nat (size str))) m str chars_to_trim.

Fixpoint trim_end_loop (fuel : nat) (m : mem) (str chars_to_trim : strview_t)
    : option strview_t :=
  match fuel with
  | O => None
  | S f =>
      if size str =? 0 then Some str
      else
        do found <-
          contains_char m chars_to_trim
            (m (data str + int_sub (size str) 1)) CASE_SENSETIVE;
        if (found : bool) then
          trim_end_loop f m
            {| data := data str; size := int_sub (size str) 1 |} chars_to_trim
        else Some str
  end.

Definition strview_trim_end (m : mem) (str chars_to_trim : strview_t)
    : option strview_t :=
  trim_end_loop (S (Z.to_nat (size str))) m str chars_to_trim.

Definition strview_trim (m : mem) (str chars_to_trim : strview_t)
    : option strview_t :=
  do str <- strview_trim_start m str chars_to_trim;
  strview_trim_end m str chars_to_trim.

(** ** Drivers and reference functions used by the statements *)

(** Whether [c] is one of the characters of the delimiter view [d]. *)
Definition is_delimiter (m : mem) (d : strview_t) (c : char) : bool :=
  existsb (fun x => x =? c) (content m d).

(** The loop a caller drives with [strview_split_first_delimeter]: call
    until the source is Invalid, and join the returned pieces with the
    delimiter character each successful call consumed (the byte under the
    end of the returned piece). *)
Fixpoint split_join_loop (calls : nat) (m : mem) (v d : strview_t)
    : option (list char) :=
  match calls with
  | O => None
  | S k =>
      do rs <- strview_split_first_delimeter m (Some v) d;
      match snd rs with
      | Some v' =>
          let piece := fst rs in
          if strview_is_valid v' then
            do rest <- split_join_loop k m v' d;
            Some (content m piece ++ m (data piece + size piece) :: rest)
          else Some (content m piece)
      | None => None
      end
  end.

Definition split_join (m : mem) (v d : strview_t) : option (list char) :=
  split_join_loop (S (Z.to_nat (size v))) m v d.

(** The four delimiter splitters of the public interface. *)
Inductive splitter : Set :=
  | FirstDelimeter
  | FirstDelimiterNocase
  | LastDelimeter
  | LastDelimeterNocase.

Definition call_splitter (m : mem) (op : splitter)
    (strview_ptr : option strview_t) (delimiters : strview_t)
    : option (strview_t * option strview_t) :=
  match op with
  | FirstDelimeter => strview_split_first_delimeter m strview_ptr delimiters
  | FirstDelimiterNocase =>
      strview_split_first_delimiter_nocase m strview_ptr delimiters
  | LastDelimeter => strview_split_last_delimeter m strview_ptr delimiters
  | LastDelimeterNocase =>
      strview_split_last_delimeter_nocase m strview_ptr delimiters
  end.

(** A sequence of splitter calls on one source slot: the views returned, in
    order, and the final contents of the slot. *)
Fixpoint run_splitters (m : mem) (calls : list (splitter * strview_t))
    (strview_ptr : option strview_t)
    : option (list strview_t * option strview_t) :=
  match calls with
  | [] => Some ([], strview_ptr)
  | (op, d) :: rest =>
      do rs <- call_splitter m op strview_ptr d;
      do out <- run_splitters m rest (snd rs);
      Some (fst rs :: fst out, snd out)
  end.

(** Character storage holding the given byte strings at the given
    addresses and 0 elsewhere. *)
Fixpoint mem_of_segments (segs : list (ptr * list char)) (a : ptr) : char :=
  match segs with
  | [] => 0
  | (base, l) :: rest =>
      if (base <=? a) && (a <? base + Z.of_nat (length l))
      then nth (Z.to_nat (a - base)) l 0
      else mem_of_segments rest a
  end.

(** The string literal ["\r\n"] is stored at [lit]. *)
Definition literal_crlf (m : mem) (lit : ptr) : Prop :=
  0 < lit /\ m lit = CR /\ m (lit + 1) = LF /\ m (lit + 2) = 0.

(** ["\nabc"] at address 100 and the literal ["\r\n"] at address 200. *)
Definition demo_mem : mem :=
  mem_of_segments [(100, [10; 97; 98; 99]); (200, [13; 10; 0])].

(** The indices of [strview_sub] after negative ones are taken from the
    end of the view. *)
Definition resolve_index (length i : Z) : Z := if i <? 0 then length + i else i.

(** Reference scan: the first address in the [n] bytes from [p] that holds
    a character of [d]. *)
Fixpoint first_delimiter_at (m : mem) (d : strview_t) (p : ptr) (n : nat)
    : option ptr :=
  match n with
  | O => None
  | S n' =>
      if is_delimiter m d (m p) then Some p
      else first_delimiter_at m d (p + 1) n'
  end.

(** ["2023/07/03"] at address 100 and ["/"] at address 200. *)
Definition date_mem : mem :=
  mem_of_segments
    [(100, [50; 48; 50; 51; 47; 48; 55; 47; 48; 51]); (200, [47; 0])].

(** The bytes of a view as [memcmp] reads them ([unsigned char]). *)
Definition bytes (m : mem) (v : strview_t) : list Z :=
  map (fun c => c mod 256) (content m v).

(** Lexicographic order on byte strings, a proper prefix sorting first;
    the result is -1, 0 or 1. *)
Fixpoint lex_compare (x y : list Z) : Z :=
  match x, y with
  | [], [] => 0
  | [], _ :: _ => -1
  | _ :: _, [] => 1
  | a :: x', b :: y' => if a =? b then lex_compare x' y' else Z.sgn (a - b)
  end.

(** Reference scans over addresses: the first address satisfying [f]
    among [p, p+1, ...] ([n] of them), and among [p, p-1, ...]. *)
Fixpoint first_at (f : ptr -> bool) (p : ptr) (n : nat) : option ptr :=
  match n with
  | O => None
  | S n' => if f p then Some p else first_at f (p + 1) n'
  end.

Fixpoint last_at (f : ptr -> bool) (p : ptr) (n : nat) : option ptr :=
  match n with
  | O => None
  | S n' => if f p then Some p else last_at f (p - 1) n'
  end.

(** Whether the needle's bytes stand at address [p]. *)
Definition occurs_at (m : mem) (needle : strview_t) (p : ptr) : bool :=
  memcmp m p (data needle) (to_size_t (size needle)) =? 0.

(** The storage holds values of a [char] object, [char] being signed or
    unsigned. *)
Definition char_storage (m : mem) : Prop :=
  (forall a, -128 <= m a <= 127) \/ (forall a, 0 <= m a <= 255).

(** [" ._THIS. _"] at address 100 and [" ._"] at address 200. *)
Definition trim_mem : mem :=
  mem_of_segments
    [(100, [32; 46; 95; 84; 72; 73; 83; 46; 32; 95]); (200, [32; 46; 95; 0])].

(** ["line1\r\nline2\rline3"] at address 100 and ["\r\n"] at 200. *)
Definition lines_mem : mem :=
  mem_of_segments
    [(100, [108; 105; 110; 101; 49; 13; 10; 108; 105; 110; 101; 50; 13;
            108; 105; 110; 101; 51]);
     (200, [13; 10; 0])].

(** The characters of a view as [memcmp_nocase] compares them: converted
    to [unsigned] and upper-cased. *)
Definition folded (m : mem) (v : strview_t) : list Z :=
  map (fun c => toupper (c mod 4294967296)) (content m v).

(** Removal of the leading, and of the trailing, elements that satisfy
    [f]. *)
Fixpoint drop_while {A} (f : A -> bool) (l : list A) : list A :=
  match l with
  | [] => []
  | x :: t => if f x then drop_while f t else l
  end.

Fixpoint drop_while_end {A} (f : A -> bool) (l : list A) : list A :=
  match l with
  | [] => []
  | x :: t =>
      match drop_while_end f t with
      | [] => if f x then [] else [x]
      | t' => x :: t'
      end
  end.

(** ** Integer facts *)

Lemma wrap_int_id z : in_int z -> wrap_int z = z.
Proof.
  unfold in_int, wrap_int, INT_MIN, INT_MAX. intros H.
  rewrite Z.mod_small; lia.
Qed.

Lemma int_add_id a b : in_int (a + b) -> int_add a b = a + b.
Proof. apply wrap_int_id. Qed.

Lemma int_sub_id a b : in_int (a - b) -> int_sub a b = a - b.
Proof. apply wrap_int_id. Qed.

Ltac int_range := unfold in_int, INT_MIN, INT_MAX in *; lia.

Ltac unwrap :=
  repeat match goal with
    | |- context [int_add ?a ?b] => rewrite (int_add_id a b) by int_range
    | |- context [int_sub ?a ?b] => rewrite (int_sub_id a b) by int_range
    | |- context [wrap_int ?a] => rewrite (wrap_int_id a) by int_range
    end.

(** ** Reading the storage *)

Section Storage.

Variable m : mem.

Lemma read_length : forall n p, length (read m p n) = n.
Proof. induction n; intros; cbn; auto. Qed.

Lemma read_app : forall a b p,
  read m p (a + b) = read m p a ++ read m (p + Z.of_nat a) b.
Proof.
  induction a as [|a IH]; intros b p.
  - simpl. now rewrite Z.add_0_r.
  - cbn [Nat.add read app]. rewrite IH. do 3 f_equal. lia.
Qed.

Lemma content_length v : length (content m v) = Z.to_nat (size v).
Proof. apply read_length. Qed.

Lemma content_split d s k :
  0 <= k <= s ->
  content m {| data := d; size := s |} =
  content m {| data := d; size := k |}
  ++ content m {| data := d + k; size := s - k |}.
Proof.
  intros H. unfold content; cbn [data size].
  replace (Z.to_nat s) with (Z.to_nat k + Z.to_nat (s - k))%nat by lia.
  rewrite read_app. do 2 f_equal. lia.
Qed.

Lemma content_cons p s :
  0 < s ->
  content m {| data := p; size := s |}
  = m p :: content m {| data := p + 1; size := s - 1 |}.
Proof.
  intros H. unfold content. cbn [data size].
  replace (Z.to_nat s) with (S (Z.to_nat (s - 1))) by lia. reflexivity.
Qed.

End Storage.

(** ** [split_index] *)

Lemma split_index_spec sv n :
  0 <= size sv <= INT_MAX -> in_int n ->
  let k := if n <? 0 then Z.max 0 (size sv + n) else Z.min n (size sv) in
  let head := {| data := data sv; size := k |} in
  let tail := {| data := data sv + k; size := size sv - k |} in
  split_index sv n = if n <? 0 then (tail, head) else (head, tail).
Proof.
  intros Hs Hn. unfold split_index. cbv zeta.
  destruct (Z.ltb_spec n 0) as [Hneg|Hpos]; cbn [negb].
  - unwrap.
    destruct (Z.ltb_spec (size sv + n) 0).
    + replace (Z.max 0 (size sv + n)) with 0 by lia.
      destruct (Z.ltb_spec (size sv) 0); [lia|]. unwrap. reflexivity.
    + replace (Z.max 0 (size sv + n)) with (size sv + n) by lia.
      destruct (Z.ltb_spec (size sv) (size sv + n)); [lia|]. unwrap.
      reflexivity.
  - destruct (Z.ltb_spec n 0); [lia|].
    destruct (Z.ltb_spec (size sv) n).
    + replace (Z.min n (size sv)) with (size sv) by lia. unwrap. reflexivity.
    + replace (Z.min n (size sv)) with n by lia. unwrap. reflexivity.
Qed.

Lemma valid_view_is_valid v : valid_view v -> strview_is_valid v = true.
Proof.
  intros [H _]. unfold strview_is_valid, ptr_is_null, NULL.
  destruct (Z.eqb_spec (data v) 0); [lia | reflexivity].
Qed.

(** C7. Splitting by index loses nothing: for every view (Invalid, empty
    or not) and every [int] index, negative or out of range, the returned
    piece and the piece left in the source are the head and the tail of the
    original, and head followed by tail is the original content.  A
    non-negative index returns the head, a negative one the tail. *)
Theorem split_index_roundtrip m (v : strview_t) (n : Z) :
  wf_view v -> in_int n ->
  exists returned remaining,
    strview_split_index (Some v) n = (returned, Some remaining) /\
    (if n <? 0
     then content m remaining ++ content m returned
     else content m returned ++ content m remaining) = content m v.
Proof.
  intros Hv Hn.
  assert (Hs : 0 <= size v <= INT_MAX).
  { destruct Hv as [->|[_ H]]; [cbn; int_range | exact H]. }
  unfold strview_split_index.
  pose proof (split_index_spec v n Hs Hn) as E. cbv zeta in E. rewrite E.
  destruct v as [d s]; cbn [data size] in *.
  destruct (Z.ltb_spec n 0).
  - eexists _, _. split; [reflexivity|].
    symmetry. apply content_split. lia.
  - eexists _, _. split; [reflexivity|].
    symmetry. apply content_split. lia.
Qed.

Lemma split_index_roundtrip_witness :
  exists returned remaining,
    strview_split_index (Some {| data := 100; size := 4 |}) (-7)
    = (returned, Some remaining) /\
    content demo_mem remaining ++ content demo_mem returned
    = content demo_mem {| data := 100; size := 4 |}.
Proof.
  apply (split_index_roundtrip demo_mem {| data := 100; size := 4 |} (-7)).
  - right. unfold valid_view, INT_MAX. cbn. lia.
  - unfold in_int, INT_MIN, INT_MAX. lia.
Defined.

(** ** [strview_split_right] *)

Lemma null_test_valid p : 0 < p -> ptr_is_null p = false.
Proof. intros H. unfold ptr_is_null, NULL. apply Z.eqb_neq. lia. Qed.

(** C1 (as the code has it). For a valid source [src] and a valid [pos]
    whose span lies inside [src], [strview_split_right] returns the
    sub-view from the end of [pos] to the end of [src], and the source keeps
    everything before the END of [pos]: the bytes of [pos] stay in the
    source. *)
Theorem split_right_keeps_through_pos (src pos : strview_t) :
  valid_view src -> valid_view pos -> span_inside pos src ->
  strview_split_right (Some src) pos =
  ({| data := data pos + size pos;
      size := data src + size src - (data pos + size pos) |},
   Some {| data := data src; size := data pos + size pos - data src |}).
Proof.
  intros Hs Hp [Hlo Hhi].
  unfold strview_split_right.
  rewrite (valid_view_is_valid _ Hs), (valid_view_is_valid _ Hp).
  destruct Hs as [Hs0 Hs1], Hp as [Hp0 Hp1]. cbn [andb].
  destruct (Z.leb_spec (data src) (data pos + size pos)); [|lia].
  destruct (Z.leb_spec (data pos + size pos) (data src + size src)); [|lia].
  cbn [andb]. unwrap.
  rewrite split_index_spec by (try split; int_range). cbv zeta.
  destruct (Z.ltb_spec (data pos + size pos - data src) 0); [lia|].
  replace (Z.min (data pos + size pos - data src) (size src))
    with (data pos + size pos - data src) by lia.
  unfold strview_swap. f_equal. f_equal; lia.
Qed.

Lemma split_right_keeps_through_pos_witness :
  strview_split_right (Some {| data := 100; size := 6 |})
    {| data := 102; size := 2 |}
  = ({| data := 104; size := 2 |}, Some {| data := 100; size := 4 |}).
Proof.
  apply (split_right_keeps_through_pos {| data := 100; size := 6 |}
           {| data := 102; size := 2 |});
    unfold valid_view, span_inside, INT_MAX; cbn; lia.
Defined.

(** C1 as the specification words it does not hold: the source is not cut
    back to the start of [pos].  With [src] the six bytes at 100 and [pos]
    the two bytes at 102, the source keeps four bytes, not two. *)
Lemma split_right_drops_pos_refuted :
  ~ (forall src pos : strview_t,
       valid_view src -> valid_view pos -> span_inside pos src ->
       strview_split_right (Some src) pos =
       ({| data := data pos + size pos;
           size := data src + size src - (data pos + size pos) |},
        Some {| data := data src; size := data pos - data src |})).
Proof.
  intros H.
  specialize (H {| data := 100; size := 6 |} {| data := 102; size := 2 |}).
  assert (E : strview_split_right (Some {| data := 100; size := 6 |})
                {| data := 102; size := 2 |}
              = ({| data := 104; size := 2 |},
                 Some {| data := 100; size := 4 |})) by reflexivity.
  rewrite E in H.
  assert (C : ({| data := 104; size := 2 |}, Some {| data := 100; size := 4 |})
              = ({| data := 104; size := 2 |},
                 Some {| data := 100; size := 2 |})).
  { apply H; unfold valid_view, span_inside, INT_MAX; cbn; lia. }
  discriminate C.
Qed.

(** ** [strview_sub] *)

(** C2 (as the code has it). For a valid non-empty view, negative indices
    are resolved as [length + index]; when the resolved range is inverted
    ([begin > end]), starts at or after the length, or ends before 0, the
    result is Invalid; otherwise [begin] is raised to 0 and [end] lowered to
    the length and the result is the slice between them, anchored at
    [data + begin] (a zero-length one when the range is empty). *)
Theorem strview_sub_spec (v : strview_t) (begin end_ : Z) :
  valid_view v -> 0 < size v -> in_int begin -> in_int end_ ->
  let b := resolve_index (size v) begin in
  let e := resolve_index (size v) end_ in
  strview_sub v begin end_ =
  if (b <=? e) && (b <? size v) && (0 <=? e)
  then {| data := data v + Z.max 0 b;
          size := Z.min e (size v) - Z.max 0 b |}
  else STRVIEW_INVALID.
Proof.
  intros [Hd Hs] Hne Hb He. cbv zeta. unfold strview_sub, resolve_index.
  rewrite (null_test_valid _ Hd).
  destruct (Z.eqb_spec (size v) 0); [lia|]. cbn [negb andb].
  assert (Eb : (if begin <? 0 then int_add (size v) begin else begin)
               = (if begin <? 0 then size v + begin else begin)).
  { destruct (Z.ltb_spec begin 0); [unwrap|]; reflexivity. }
  assert (Ee : (if end_ <? 0 then int_add (size v) end_ else end_)
               = (if end_ <? 0 then size v + end_ else end_)).
  { destruct (Z.ltb_spec end_ 0); [unwrap|]; reflexivity. }
  rewrite Eb, Ee.
  set (b := if begin <? 0 then size v + begin else begin).
  set (e := if end_ <? 0 then size v + end_ else end_).
  assert (Rb : INT_MIN <= b <= INT_MAX).
  { subst b. destruct (Z.ltb_spec begin 0); int_range. }
  assert (Re : INT_MIN <= e <= INT_MAX).
  { subst e. destruct (Z.ltb_spec end_ 0); int_range. }
  destruct (Z.leb_spec b e); cbn [andb]; [|reflexivity].
  destruct (Z.ltb_spec b (size v)); cbn [andb]; [|reflexivity].
  destruct (Z.leb_spec 0 e); [|reflexivity].
  destruct (Z.ltb_spec b 0), (Z.ltb_spec (size v) e); unwrap; f_equal; lia.
Qed.

Lemma strview_sub_spec_witness :
  strview_sub {| data := 100; size := 10 |} (-1000) 2
  = {| data := 100; size := 2 |}.
Proof.
  apply (strview_sub_spec {| data := 100; size := 10 |} (-1000) 2);
    unfold valid_view, in_int, INT_MIN, INT_MAX; cbn; lia.
Defined.

(** C2 as the specification words it does not hold: an inverted range does
    not give a zero-length view anchored at the view's data pointer.  For
    the five bytes at 100, [begin = 3] and [end = 1] give the Invalid
    view. *)
Lemma strview_sub_inverted_refuted :
  ~ (forall (v : strview_t) (begin end_ : Z),
       valid_view v -> 0 < size v -> in_int begin -> in_int end_ ->
       resolve_index (size v) end_ < resolve_index (size v) begin ->
       strview_sub v begin end_ = {| data := data v; size := 0 |}).
Proof.
  intros H.
  specialize (H {| data := 100; size := 5 |} 3 1).
  assert (E : strview_sub {| data := 100; size := 5 |} 3 1 = STRVIEW_INVALID)
    by reflexivity.
  rewrite E in H.
  assert (C : STRVIEW_INVALID = {| data := 100; size := 0 |}).
  { apply H; unfold valid_view, in_int, resolve_index, INT_MIN, INT_MAX;
      cbn; lia. }
  discriminate C.
Qed.

(** ** Comparison and search on Invalid and empty views *)

Lemma to_size_t_0 : to_size_t 0 = O.
Proof. reflexivity. Qed.

(** C10. The match predicates do not look at validity: an Invalid view
    and a valid zero-length view match, in either argument order, with and
    without case folding. *)
Theorem match_invalid_with_valid_empty (m : mem) (v : strview_t) :
  valid_view v -> size v = 0 ->
  strview_is_valid STRVIEW_INVALID = false /\
  strview_is_valid v = true /\
  strview_is_match m STRVIEW_INVALID v = true /\
  strview_is_match m v STRVIEW_INVALID = true /\
  strview_is_match_nocase m STRVIEW_INVALID v = true /\
  strview_is_match_nocase m v STRVIEW_INVALID = true.
Proof.
  intros Hv Hz. pose proof (valid_view_is_valid v Hv) as Hval.
  destruct v as [d s]; cbn [size] in Hz; subst s.
  unfold strview_is_match, strview_is_match_nocase. cbn [size data STRVIEW_INVALID].
  rewrite to_size_t_0. cbn [memcmp memcmp_nocase].
  rewrite !Z.eqb_refl, !orb_true_r.
  repeat split; auto.
Qed.

Lemma match_invalid_with_valid_empty_witness :
  strview_is_valid STRVIEW_INVALID = false /\
  strview_is_valid {| data := 100; size := 0 |} = true /\
  strview_is_match demo_mem STRVIEW_INVALID {| data := 100; size := 0 |} = true /\
  strview_is_match demo_mem {| data := 100; size := 0 |} STRVIEW_INVALID = true /\
  strview_is_match_nocase demo_mem STRVIEW_INVALID {| data := 100; size := 0 |}
  = true /\
  strview_is_match_nocase demo_mem {| data := 100; size := 0 |} STRVIEW_INVALID
  = true.
Proof.
  apply (match_invalid_with_valid_empty demo_mem {| data := 100; size := 0 |}).
  - unfold valid_view, INT_MAX. cbn. lia.
  - reflexivity.
Defined.

(** C9. An empty needle always matches: in a valid haystack the first
    occurrence of a valid zero-length needle is the zero-length view at the
    haystack's start, the last occurrence the zero-length view at its end,
    and both results are valid. *)
Theorem find_empty_needle (m : mem) (h n : strview_t) :
  valid_view h -> valid_view n -> size n = 0 ->
  strview_find_first m h n = Some {| data := data h; size := 0 |} /\
  strview_find_last m h n = Some {| data := data h + size h; size := 0 |} /\
  strview_is_valid {| data := data h; size := 0 |} = true /\
  strview_is_valid {| data := data h + size h; size := 0 |} = true.
Proof.
  intros [Hd Hs] [Hnd _] Hz.
  destruct n as [nd ns]; cbn [data size] in *; subst ns.
  unfold strview_find_first, strview_find_last. cbn [data size].
  rewrite (null_test_valid _ Hd), (null_test_valid _ Hnd).
  cbn [negb andb find_first_loop find_last_loop data size].
  rewrite !to_size_t_0. cbn [memcmp]. unwrap.
  rewrite Z.sub_0_r.
  destruct (Z.leb_spec 0 (data h + size h - data h)); [|lia].
  destruct (Z.leb_spec (data h) (data h + size h)); [|lia].
  cbn. repeat split.
  - unfold strview_is_valid. cbn. now rewrite null_test_valid.
  - unfold strview_is_valid. cbn. rewrite null_test_valid; [reflexivity|lia].
Qed.

Lemma find_empty_needle_witness :
  strview_find_first demo_mem {| data := 100; size := 4 |}
    {| data := 200; size := 0 |}
  = Some {| data := 100; size := 0 |} /\
  strview_find_last demo_mem {| data := 100; size := 4 |}
    {| data := 200; size := 0 |}
  = Some {| data := 104; size := 0 |} /\
  strview_is_valid {| data := 100; size := 0 |} = true /\
  strview_is_valid {| data := 104; size := 0 |} = true.
Proof.
  apply (find_empty_needle demo_mem {| data := 100; size := 4 |}
           {| data := 200; size := 0 |});
    unfold valid_view, INT_MAX; cbn; try lia; reflexivity.
Defined.

(** Which functions read the stored size of an Invalid view.  The
    functions guarded by the data pointer ([strview_is_valid],
    [strview_sub], both searches in either argument, [strview_contains],
    and [strview_starts_with] in its second argument) give for [{NULL, s}]
    what they give for [{NULL, 0}].  The two comparisons have no such
    guard and read the stored size: [{NULL, s}] matches [{NULL, 0}] only
    when [s = 0], and for [s > 0] it compares greater. *)
Lemma invalid_view_stored_size (m : mem) (s : Z) (other : strview_t)
    (begin end_ : Z) :
  let stale := {| data := NULL; size := s |} in
  strview_is_valid stale = strview_is_valid STRVIEW_INVALID /\
  strview_sub stale begin end_ = strview_sub STRVIEW_INVALID begin end_ /\
  strview_find_first m stale other = strview_find_first m STRVIEW_INVALID other /\
  strview_find_first m other stale = strview_find_first m other STRVIEW_INVALID /\
  strview_find_last m stale other = strview_find_last m STRVIEW_INVALID other /\
  strview_find_last m other stale = strview_find_last m other STRVIEW_INVALID /\
  strview_contains m stale other = strview_contains m STRVIEW_INVALID other /\
  strview_contains m other stale = strview_contains m other STRVIEW_INVALID /\
  strview_starts_with m other stale
  = strview_starts_with m other STRVIEW_INVALID /\
  strview_is_match m stale STRVIEW_INVALID = (s =? 0) /\
  (0 < s -> strview_compare m stale STRVIEW_INVALID = 1).
Proof.
  cbv zeta.
  unfold strview_contains, strview_find_first, strview_find_last,
    strview_starts_with, strview_sub, strview_is_valid, strview_is_match,
    strview_compare.
  cbn [data size STRVIEW_INVALID]. unfold ptr_is_null.
  rewrite !Z.eqb_refl. cbn [negb andb orb].
  rewrite !andb_false_r, andb_true_r.
  repeat split; try reflexivity.
  intros Hpos.
  destruct (Z.ltb_spec s 0); [lia|]. cbn.
  destruct (Z.eqb_spec s 0); [lia|]. cbn.
  destruct (Z.ltb_spec 0 s); [reflexivity|lia].
Qed.

Lemma invalid_view_stored_size_witness :
  strview_is_match demo_mem {| data := NULL; size := 3 |} STRVIEW_INVALID = false /\
  strview_compare demo_mem {| data := NULL; size := 3 |} STRVIEW_INVALID = 1.
Proof.
  pose proof (invalid_view_stored_size demo_mem 3 STRVIEW_INVALID 0 0) as H.
  cbv zeta in H.
  destruct H as (_ & _ & _ & _ & _ & _ & _ & _ & _ & Hm & Hc).
  split; [exact Hm | apply Hc; lia].
Defined.

(** Hence the comparisons do not treat every Invalid view as the
    length-0 one: they tell [{NULL, 1}] from [{NULL, 0}]. *)
Lemma invalid_view_stale_size_refuted :
  ~ (forall (m : mem) (s : Z) (other : strview_t),
       strview_is_match m {| data := NULL; size := s |} other
       = strview_is_match m STRVIEW_INVALID other /\
       strview_compare m {| data := NULL; size := s |} other
       = strview_compare m STRVIEW_INVALID other).
Proof.
  intros H.
  destruct (H demo_mem 1 STRVIEW_INVALID) as [Hm _].
  discriminate Hm.
Qed.

(** C4 at the failing input.  [{NULL, 1}] and [{NULL, 0}] are both Invalid
    views, and the header documents [strview_is_match] as true and
    [strview_compare] as 0 when both views are invalid.  With a stale size
    of 1 stored in the first view, [strview_is_match] returns false and
    [strview_compare] returns 1, where on [{NULL, 0}] they return true and
    0: the Invalid view is not treated as length 0 by the comparisons. *)
Theorem invalid_stale_size_compared (m : mem) :
  strview_is_valid {| data := NULL; size := 1 |} = false /\
  strview_is_valid STRVIEW_INVALID = false /\
  strview_is_match m {| data := NULL; size := 1 |} STRVIEW_INVALID = false /\
  strview_is_match m STRVIEW_INVALID STRVIEW_INVALID = true /\
  strview_compare m {| data := NULL; size := 1 |} STRVIEW_INVALID = 1 /\
  strview_compare m STRVIEW_INVALID STRVIEW_INVALID = 0.
Proof. repeat split. Qed.

(** ** The delimiter scan *)

Section DelimiterScan.

Variable m : mem.
Variable d : strview_t.

Lemma contains_char_loop_spec c : forall n p,
  contains_char_loop (S n) m p (p + Z.of_nat n) c true
  = Some (existsb (fun x => x =? c) (read m p n)).
Proof.
  induction n as [|n IH]; intros p.
  - cbn. replace (p + 0) with p by lia. now rewrite Z.eqb_refl.
  - cbn [contains_char_loop read existsb].
    destruct (Z.eqb_spec p (p + Z.of_nat (S n))); [lia|].
    destruct (m p =? c); [reflexivity|].
    cbn [orb].
    replace (p + Z.of_nat (S n)) with (p + 1 + Z.of_nat n) by lia.
    apply IH.
Qed.

Lemma contains_char_spec c :
  0 <= size d ->
  contains_char m d c CASE_SENSETIVE = Some (is_delimiter m d c).
Proof.
  intros H. unfold contains_char, is_delimiter, content, CASE_SENSETIVE.
  replace (data d + size d) with (data d + Z.of_nat (Z.to_nat (size d)))
    by lia.
  apply contains_char_loop_spec.
Qed.

Lemma first_delimeter_loop_spec :
  0 <= size d ->
  forall n p,
    first_delimeter_loop (S n) m p (p + Z.of_nat n) d CASE_SENSETIVE
    = Some match first_delimiter_at m d p n with
           | Some q => (true, q)
           | None => (false, p + Z.of_nat n)
           end.
Proof.
  intros Hd. induction n as [|n IH]; intros p.
  - cbn. replace (p + 0) with p by lia. now rewrite Z.eqb_refl.
  - cbn [first_delimeter_loop first_delimiter_at].
    destruct (Z.eqb_spec p (p + Z.of_nat (S n))); [lia|].
    rewrite contains_char_spec by assumption.
    destruct (is_delimiter m d (m p)); [reflexivity|].
    replace (p + Z.of_nat (S n)) with (p + 1 + Z.of_nat n) by lia.
    apply IH.
Qed.

Lemma first_delimiter_at_some : forall n p q,
  first_delimiter_at m d p n = Some q ->
  p <= q < p + Z.of_nat n /\
  is_delimiter m d (m q) = true /\
  (forall j, p <= j < q -> is_delimiter m d (m j) = false).
Proof.
  induction n as [|n IH]; intros p q H; [discriminate|].
  cbn [first_delimiter_at] in H.
  destruct (is_delimiter m d (m p)) eqn:E.
  - injection H as <-. repeat split; auto; lia.
  - apply IH in H. destruct H as (Hr & Hq & Hb).
    repeat split; auto; try lia.
    intros j Hj. destruct (Z.eq_dec j p) as [->|]; [assumption|].
    apply Hb. lia.
Qed.

Lemma first_delimiter_at_none : forall n p,
  first_delimiter_at m d p n = None ->
  forall j, p <= j < p + Z.of_nat n -> is_delimiter m d (m j) = false.
Proof.
  induction n as [|n IH]; intros p H j Hj; [lia|].
  cbn [first_delimiter_at] in H.
  destruct (is_delimiter m d (m p)) eqn:E; [discriminate|].
  destruct (Z.eq_dec j p) as [->|]; [assumption|].
  apply (IH (p + 1)); [assumption | lia].
Qed.

Lemma first_delimiter_at_first n p i :
  0 <= i < Z.of_nat n ->
  is_delimiter m d (m (p + i)) = true ->
  (forall j, 0 <= j < i -> is_delimiter m d (m (p + j)) = false) ->
  first_delimiter_at m d p n = Some (p + i).
Proof.
  intros Hi Hd Hb.
  destruct (first_delimiter_at m d p n) as [q|] eqn:E.
  - apply first_delimiter_at_some in E. destruct E as (Hr & Hq & Hbq).
    f_equal.
    destruct (Z.lt_trichotomy q (p + i)) as [Hlt|[Heq|Hgt]]; [|assumption|].
    + specialize (Hb (q - p)). replace (p + (q - p)) with q in Hb by lia.
      rewrite Hb in Hq by lia. discriminate.
    + rewrite Hbq in Hd by lia. discriminate.
  - pose proof (first_delimiter_at_none n p E (p + i)) as H.
    rewrite H in Hd by lia. discriminate.
Qed.

Lemma first_delimiter_at_absent n p :
  (forall j, 0 <= j < Z.of_nat n -> is_delimiter m d (m (p + j)) = false) ->
  first_delimiter_at m d p n = None.
Proof.
  intros Hb.
  destruct (first_delimiter_at m d p n) as [q|] eqn:E; [|reflexivity].
  apply first_delimiter_at_some in E. destruct E as (Hr & Hq & _).
  specialize (Hb (q - p)). replace (p + (q - p)) with q in Hb by lia.
  rewrite Hb in Hq by lia. discriminate.
Qed.

End DelimiterScan.

Lemma wf_view_size v : wf_view v -> 0 <= size v <= INT_MAX.
Proof. intros [->|[_ H]]; [cbn; int_range | exact H]. Qed.

(** What [split_first_delimeter] computes on well-formed views, in terms
    of the reference scan. *)
Lemma split_first_delimeter_scan m sv d :
  wf_view sv -> wf_view d ->
  split_first_delimeter m sv d CASE_SENSETIVE =
  Some match first_delimiter_at m d (data sv) (Z.to_nat (size sv)) with
       | Some q =>
           ({| data := data sv; size := q - data sv |},
            {| data := if size sv - (q - data sv) - 1 =? 0 then q else q + 1;
               size := size sv - (q - data sv) - 1 |})
       | None => (sv, STRVIEW_INVALID)
       end.
Proof.
  intros Hsv Hd. unfold split_first_delimeter.
  destruct Hsv as [->|[Hp Hs]].
  - reflexivity.
  - rewrite (null_test_valid _ Hp). cbn [negb andb].
    destruct Hd as [->|[Hdp Hds]].
    + cbn [STRVIEW_INVALID data ptr_is_null negb].
      rewrite first_delimiter_at_absent; [reflexivity|].
      intros j _. reflexivity.
    + rewrite (null_test_valid _ Hdp). cbn [negb].
      replace (data sv + size sv)
        with (data sv + Z.of_nat (Z.to_nat (size sv))) by lia.
      rewrite first_delimeter_loop_spec by lia.
      destruct (first_delimiter_at m d (data sv) (Z.to_nat (size sv)))
        as [q|] eqn:E; [|reflexivity].
      apply first_delimiter_at_some in E. destruct E as (Hr & _).
      cbn [size]. unwrap. reflexivity.
Qed.

(** ** Splitting at the first delimiter *)

(** C5. Splitting at the first delimiter.  When the first character of
    [src] that belongs to [d] is at offset [i], the call returns
    [src[0:i]] and leaves in the source the bytes strictly after the
    delimiter, as a valid view: [src[i+1:]], or a zero-length valid view
    when the delimiter was the last character.  When no character of [src]
    belongs to [d], the whole of [src] is returned and the source is set
    Invalid. *)
Theorem split_first_delimeter_spec (m : mem) (src d : strview_t) :
  wf_view src -> wf_view d ->
  (forall i,
     0 <= i < size src ->
     is_delimiter m d (m (data src + i)) = true ->
     (forall j, 0 <= j < i -> is_delimiter m d (m (data src + j)) = false) ->
     let rest :=
       {| data := if i + 1 =? size src then data src + i else data src + i + 1;
          size := size src - (i + 1) |} in
     strview_split_first_delimeter m (Some src) d
     = Some ({| data := data src; size := i |}, Some rest) /\
     strview_is_valid rest = true /\
     content m rest = skipn (Z.to_nat (i + 1)) (content m src)) /\
  ((forall j, 0 <= j < size src ->
      is_delimiter m d (m (data src + j)) = false) ->
   strview_split_first_delimeter m (Some src) d
   = Some (src, Some STRVIEW_INVALID)).
Proof.
  intros Hsrc Hd. unfold strview_split_first_delimeter.
  rewrite split_first_delimeter_scan by assumption.
  split.
  - intros i Hi Hdel Hbefore. cbv zeta.
    rewrite (first_delimiter_at_first m d _ _ i) by (auto; lia).
    cbn [fst snd].
    destruct Hsrc as [->|[Hp Hs]]; [cbn in Hi; lia|].
    replace (data src + i - data src) with i by lia.
    replace (size src - i - 1) with (size src - (i + 1)) by lia.
    assert (Et : (size src - (i + 1) =? 0) = (i + 1 =? size src)).
    { destruct (Z.eqb_spec (size src - (i + 1)) 0),
        (Z.eqb_spec (i + 1) (size src)); auto; lia. }
    rewrite Et. repeat split.
    + unfold strview_is_valid. cbn [data].
      rewrite null_test_valid; [reflexivity|].
      destruct (i + 1 =? size src); lia.
    + destruct src as [p s]; cbn [data size] in *.
      rewrite (content_split m p s (i + 1)) by lia.
      rewrite skipn_app.
      rewrite content_length. cbn [size].
      rewrite Nat.sub_diag, skipn_all2 by (rewrite content_length; cbn; lia).
      cbn [skipn app].
      destruct (Z.eqb_spec (i + 1) s) as [->|Hne].
      * rewrite Z.sub_diag. reflexivity.
      * f_equal. f_equal. lia.
  - intros Hnone.
    rewrite first_delimiter_at_absent; [reflexivity|].
    intros j Hj. apply Hnone. pose proof (wf_view_size _ Hsrc). lia.
Qed.

Lemma split_first_delimeter_spec_witness :
  strview_split_first_delimeter date_mem (Some {| data := 100; size := 10 |})
    {| data := 200; size := 1 |}
  = Some ({| data := 100; size := 4 |}, Some {| data := 105; size := 5 |}).
Proof.
  assert (Hsrc : wf_view {| data := 100; size := 10 |}).
  { right. unfold valid_view, INT_MAX. cbn. lia. }
  assert (Hd : wf_view {| data := 200; size := 1 |}).
  { right. unfold valid_view, INT_MAX. cbn. lia. }
  destruct (split_first_delimeter_spec date_mem _ _ Hsrc Hd) as [Hfound _].
  destruct (Hfound 4) as [E _].
  - cbn. lia.
  - reflexivity.
  - intros j Hj.
    assert (C : j = 0 \/ j = 1 \/ j = 2 \/ j = 3) by lia.
    destruct C as [->|[->|[->| ->]]]; reflexivity.
  - exact E.
Defined.

(** ** Round trip of repeated delimiter splitting *)

Lemma split_join_loop_step k m v d :
  split_join_loop (S k) m v d =
  do rs <- strview_split_first_delimeter m (Some v) d;
  match snd rs with
  | Some v' =>
      let piece := fst rs in
      if strview_is_valid v' then
        do rest <- split_join_loop k m v' d;
        Some (content m piece ++ m (data piece + size piece) :: rest)
      else Some (content m piece)
  | None => None
  end.
Proof. reflexivity. Qed.

Lemma split_join_loop_roundtrip m d :
  wf_view d ->
  forall n v,
    wf_view v -> size v <= Z.of_nat n ->
    split_join_loop (S n) m v d = Some (content m v).
Proof.
  intros Hd. induction n as [|n IH]; intros v Hv Hn.
  - cbn [split_join_loop]. unfold strview_split_first_delimeter.
    rewrite split_first_delimeter_scan by assumption.
    pose proof (wf_view_size _ Hv).
    replace (Z.to_nat (size v)) with O by lia. reflexivity.
  - rewrite split_join_loop_step. unfold strview_split_first_delimeter.
    rewrite split_first_delimeter_scan by assumption.
    destruct (first_delimiter_at m d (data v) (Z.to_nat (size v)))
      as [q|] eqn:E; [|reflexivity].
    apply first_delimiter_at_some in E. destruct E as (Hr & _).
    destruct Hv as [->|[Hp Hs]];
      [unfold STRVIEW_INVALID, NULL in Hr; cbn [data size] in Hr; lia|].
    cbv zeta. cbn [fst snd data size].
    set (rest := {| data := if size v - (q - data v) - 1 =? 0 then q else q + 1;
                    size := size v - (q - data v) - 1 |}).
    assert (Hrest : valid_view rest).
    { subst rest. unfold valid_view. cbn [data size].
      destruct (size v - (q - data v) - 1 =? 0); lia. }
    rewrite (valid_view_is_valid _ Hrest).
    rewrite (IH rest) by (try (right; exact Hrest); subst rest; cbn [size]; lia).
    f_equal.
    replace (data v + (q - data v)) with q by lia.
    destruct v as [p s]; cbn [data size] in *.
    rewrite (content_split m p s (q - p)) by lia. f_equal.
    replace (p + (q - p)) with q by lia.
    rewrite content_cons by lia. f_equal.
    subst rest.
    destruct (Z.eqb_spec (s - (q - p) - 1) 0) as [Hz|Hz].
    + rewrite Hz. reflexivity.
    + reflexivity.
Qed.

(** C6. Round trip of repeated delimiter splitting.  For every view [v]
    and every non-empty delimiter set [d], calling
    [strview_split_first_delimeter] until the source is Invalid and joining
    the returned pieces with the delimiter character each call consumed
    gives back exactly the content of [v]; the loop ends within
    [size v + 1] calls. *)
Theorem split_first_delimeter_roundtrip (m : mem) (v d : strview_t) :
  wf_view v -> valid_view d -> 0 < size d ->
  split_join m v d = Some (content m v).
Proof.
  intros Hv Hd _. unfold split_join.
  apply split_join_loop_roundtrip; [right; exact Hd | exact Hv |].
  pose proof (wf_view_size _ Hv). lia.
Qed.

Lemma split_first_delimeter_roundtrip_witness :
  split_join date_mem {| data := 100; size := 10 |} {| data := 200; size := 1 |}
  = Some (content date_mem {| data := 100; size := 10 |}).
Proof.
  apply (split_first_delimeter_roundtrip date_mem
           {| data := 100; size := 10 |} {| data := 200; size := 1 |}).
  - right. unfold valid_view, INT_MAX. cbn. lia.
  - unfold valid_view, INT_MAX. cbn. lia.
  - cbn. lia.
Defined.

(** ** The terminal state of the delimiter splitters *)

Lemma first_delimeter_loop_ge m d cs : forall fuel p e found q,
  first_delimeter_loop fuel m p e d cs = Some (found, q) -> p <= q.
Proof.
  induction fuel as [|fuel IH]; intros p e found q H; [discriminate|].
  cbn [first_delimeter_loop] in H.
  destruct (p =? e); [injection H as _ <-; lia|].
  destruct (contains_char m d (m p) cs) as [[|]|]; try discriminate.
  - injection H as _ <-. lia.
  - apply IH in H. lia.
Qed.

Lemma split_first_delimeter_not_found m sv d cs r sv' :
  wf_view sv ->
  split_first_delimeter m sv d cs = Some (r, sv') ->
  strview_is_valid sv' = false ->
  r = sv /\ sv' = STRVIEW_INVALID.
Proof.
  intros Hsv H Hinv. unfold split_first_delimeter in H.
  destruct (negb (ptr_is_null (data sv)) && negb (ptr_is_null (data d))) eqn:G.
  - destruct (first_delimeter_loop _ m (data sv) _ d cs)
      as [[[|] q]|] eqn:L; try discriminate.
    + apply first_delimeter_loop_ge in L.
      injection H as _ <-. exfalso.
      destruct Hsv as [->|[Hp _]]; [discriminate G|].
      unfold strview_is_valid in Hinv. cbn [data] in Hinv.
      rewrite null_test_valid in Hinv; [discriminate|].
      destruct (_ =? 0); lia.
    + injection H as <- <-. auto.
  - injection H as <- <-. auto.
Qed.

Lemma split_last_delimeter_not_found m sv d cs r sv' :
  split_last_delimeter m sv d cs = Some (r, sv') ->
  strview_is_valid sv' = false ->
  r = sv /\ sv' = STRVIEW_INVALID.
Proof.
  intros H Hinv. unfold split_last_delimeter in H.
  destruct (negb (ptr_is_null (data sv))) eqn:G1; cbn [andb] in H.
  - destruct (negb (size sv =? 0) && negb (ptr_is_null (data d))).
    + destruct (last_delimeter_loop _ m _ _ d cs) as [[[|] q]|];
        try discriminate.
      * injection H as _ <-. unfold strview_is_valid in Hinv.
        cbn [data] in Hinv. congruence.
      * injection H as <- <-. auto.
    + injection H as <- <-. auto.
  - injection H as <- <-. auto.
Qed.

Lemma call_splitter_on_invalid m op d :
  call_splitter m op (Some STRVIEW_INVALID) d
  = Some (STRVIEW_INVALID, Some STRVIEW_INVALID).
Proof. destruct op; reflexivity. Qed.

Lemma run_splitters_on_invalid m : forall calls,
  run_splitters m calls (Some STRVIEW_INVALID)
  = Some (map (fun _ => STRVIEW_INVALID) calls, Some STRVIEW_INVALID).
Proof.
  induction calls as [|[op d] calls IH]; [reflexivity|].
  cbn [run_splitters map]. rewrite call_splitter_on_invalid.
  cbn [snd fst]. rewrite IH. reflexivity.
Qed.

(** C8. The terminal state of the delimiter splitters is absorbing.  Once
    a call of any of the four delimiter splitters has left the source
    Invalid (the not-found outcome, which returns the whole source), the
    source is [STRVIEW_INVALID], and every later sequence of splitter
    calls on it, with any delimiters, returns only Invalid views and leaves
    the source Invalid. *)
Theorem delimiter_splitters_terminal_absorbing (m : mem) (op : splitter)
    (sv d r sv' : strview_t) (calls : list (splitter * strview_t)) :
  wf_view sv ->
  call_splitter m op (Some sv) d = Some (r, Some sv') ->
  strview_is_valid sv' = false ->
  r = sv /\
  sv' = STRVIEW_INVALID /\
  run_splitters m calls (Some sv')
  = Some (map (fun _ => STRVIEW_INVALID) calls, Some STRVIEW_INVALID) /\
  strview_is_valid STRVIEW_INVALID = false.
Proof.
  intros Hsv Hcall Hinv.
  assert (E : r = sv /\ sv' = STRVIEW_INVALID).
  { destruct op; cbn [call_splitter] in Hcall;
      unfold strview_split_first_delimeter,
        strview_split_first_delimiter_nocase,
        strview_split_last_delimeter,
        strview_split_last_delimeter_nocase in Hcall;
      match type of Hcall with
      | match ?c with _ => _ end = _ =>
          destruct c as [[r0 s0]|] eqn:C; [|discriminate]
      end;
      cbn [fst snd] in Hcall; injection Hcall as -> ->.
    - eapply split_first_delimeter_not_found; eauto.
    - eapply split_first_delimeter_not_found; eauto.
    - eapply split_last_delimeter_not_found; eauto.
    - eapply split_last_delimeter_not_found; eauto. }
  destruct E as [-> ->].
  repeat split; auto.
  apply run_splitters_on_invalid.
Qed.

Lemma delimiter_splitters_terminal_absorbing_witness :
  {| data := 108; size := 2 |} = {| data := 108; size := 2 |} /\
  STRVIEW_INVALID = STRVIEW_INVALID /\
  run_splitters date_mem
    [(FirstDelimeter, {| data := 200; size := 1 |});
     (LastDelimeter, {| data := 200; size := 1 |});
     (FirstDelimiterNocase, {| data := 100; size := 10 |})]
    (Some STRVIEW_INVALID)
  = Some ([STRVIEW_INVALID; STRVIEW_INVALID; STRVIEW_INVALID],
          Some STRVIEW_INVALID) /\
  strview_is_valid STRVIEW_INVALID = false.
Proof.
  apply (delimiter_splitters_terminal_absorbing date_mem FirstDelimeter
           {| data := 108; size := 2 |} {| data := 200; size := 1 |}
           {| data := 108; size := 2 |} STRVIEW_INVALID
           [(FirstDelimeter, {| data := 200; size := 1 |});
            (LastDelimeter, {| data := 200; size := 1 |});
            (FirstDelimiterNocase, {| data := 100; size := 10 |})]).
  - right. unfold valid_view, INT_MAX. cbn. lia.
  - reflexivity.
  - reflexivity.
Defined.

(** ** [strview_split_line] *)

(** C3 at the failing input.  The storage holds ["\nabc"] at 100, the
    source is those four bytes and [*eol] carries a pending CR.  No line
    terminator follows the pending half, the call returns Invalid, and the
    source is left as the three bytes at 101: the LF was consumed. *)
Theorem split_line_pending_half_consumed :
  strview_split_line demo_mem 200 (Some {| data := 100; size := 4 |}) (Some CR)
  = Some (STRVIEW_INVALID, Some {| data := 101; size := 3 |}, Some CR).
Proof. reflexivity. Qed.

Lemma cstr_literal_crlf m lit :
  literal_crlf m lit -> cstr 3 m lit = Some {| data := lit; size := 2 |}.
Proof.
  intros (Hp & Hcr & Hlf & Hnul). unfold cstr.
  rewrite (null_test_valid _ Hp). cbn [strlen].
  replace (lit + 1 + 1) with (lit + 2) by lia.
  rewrite Hcr, Hlf, Hnul. reflexivity.
Qed.

Lemma is_delimiter_crlf m lit c :
  literal_crlf m lit ->
  is_delimiter m {| data := lit; size := 2 |} c = (CR =? c) || (LF =? c).
Proof.
  intros (_ & Hcr & Hlf & _). unfold is_delimiter, content.
  cbn [data size]. change (Z.to_nat 2) with 2%nat. cbn [read existsb].
  rewrite Hcr, Hlf, orb_false_r. reflexivity.
Qed.

(** Where the source does stay as it was: when no terminator is found and
    no pending half is consumed first (no [eol], a zero [*eol], or a first
    byte that does not complete the pair), [strview_split_line] returns
    Invalid and leaves both the source and [*eol] untouched. *)
Lemma split_line_not_found_unmodified m lit sv eol :
  literal_crlf m lit -> valid_view sv ->
  (forall e, eol = Some e -> e = 0 \/ e + m (data sv) <> CR + LF) ->
  (forall j, 0 <= j < size sv ->
     m (data sv + j) <> CR /\ m (data sv + j) <> LF) ->
  strview_split_line m lit (Some sv) eol
  = Some (STRVIEW_INVALID, Some sv, eol).
Proof.
  intros Hlit Hsv Heol Hnone.
  assert (Hd : wf_view {| data := lit; size := 2 |}).
  { right. destruct Hlit as [Hp _]. unfold valid_view, INT_MAX. cbn. lia. }
  assert (Hscan : split_first_delimeter m sv {| data := lit; size := 2 |}
                    CASE_SENSETIVE = Some (sv, STRVIEW_INVALID)).
  { rewrite split_first_delimeter_scan by (auto; right; exact Hsv).
    rewrite first_delimiter_at_absent; [reflexivity|].
    intros j Hj. rewrite (is_delimiter_crlf m lit _ Hlit).
    destruct (Hnone j) as [H1 H2]; [lia|].
    destruct (Z.eqb_spec CR (m (data sv + j))); [congruence|].
    destruct (Z.eqb_spec LF (m (data sv + j))); [congruence|].
    reflexivity. }
  unfold strview_split_line. cbv zeta.
  destruct (size sv =? 0); [reflexivity|].
  rewrite (cstr_literal_crlf m lit Hlit).
  unfold strview_split_first_delimeter.
  destruct eol as [e|].
  - destruct (Heol e eq_refl) as [->|Hne].
    + cbn [Z.eqb negb andb]. rewrite Hscan. reflexivity.
    + destruct (Z.eqb_spec (e + m (data sv)) (CR + LF)); [contradiction|].
      rewrite andb_false_r, Hscan. reflexivity.
  - rewrite Hscan. reflexivity.
Qed.

(** * Further properties of the library *)

(** ** Byte comparison *)

Lemma to_size_t_id z : 0 <= z <= INT_MAX -> to_size_t z = Z.to_nat z.
Proof.
  intros H. unfold to_size_t. rewrite Z.mod_small; [reflexivity|int_range].
Qed.

Section ByteComparison.

Variable m : mem.

Lemma memcmp_zero_bytes : forall n a b,
  memcmp m a b n = 0 <->
  map (fun c => c mod 256) (read m a n) = map (fun c => c mod 256) (read m b n).
Proof.
  induction n as [|n IH]; intros a b; cbn [memcmp read map].
  - tauto.
  - destruct (Z.eqb_spec (m a mod 256) (m b mod 256)) as [E|E].
    + rewrite IH, E. split; [intros ->; reflexivity|].
      intros H. now injection H.
    + split; [lia|]. intros H. injection H as H _. contradiction.
Qed.

Lemma memcmp_opp : forall n a b, memcmp m a b n = - memcmp m b a n.
Proof.
  induction n as [|n IH]; intros a b; cbn [memcmp]; [reflexivity|].
  rewrite (Z.eqb_sym (m b mod 256)).
  destruct (m a mod 256 =? m b mod 256); [apply IH | lia].
Qed.

(** The sign of [memcmp] over the common length, followed by the length
    tie-break of [strview_compare], is the lexicographic order. *)
Lemma memcmp_lex : forall na nb pa pb,
  Z.sgn (let r := memcmp m pa pb (Nat.min na nb) in
         if (r =? 0) && negb (na =? nb)%nat
         then (if (nb <? na)%nat then 1 else -1)
         else r)
  = lex_compare (map (fun c => c mod 256) (read m pa na))
      (map (fun c => c mod 256) (read m pb nb)).
Proof.
  induction na as [|na IH]; intros [|nb] pa pb; try reflexivity.
  cbn [Nat.min memcmp read map lex_compare]. cbv zeta.
  destruct (Z.eqb_spec (m pa mod 256) (m pb mod 256)) as [E|E].
  - rewrite <- IH. reflexivity.
  - destruct (Z.eqb_spec (m pa mod 256 - m pb mod 256) 0); [lia|].
    reflexivity.
Qed.

Lemma bytes_same_span a b :
  data a = data b -> size a = size b -> bytes m a = bytes m b.
Proof. intros Hd Hs. unfold bytes, content. now rewrite Hd, Hs. Qed.

Lemma bytes_length v : length (bytes m v) = Z.to_nat (size v).
Proof. unfold bytes. rewrite length_map. apply content_length. Qed.

(** What [strview_compare] computes, for sizes an [int] can hold. *)
Lemma compare_sgn_lex a b :
  0 <= size a <= INT_MAX -> 0 <= size b <= INT_MAX ->
  Z.sgn (strview_compare m a b) = lex_compare (bytes m a) (bytes m b).
Proof.
  intros Ha Hb. unfold strview_compare, bytes, content. cbv zeta.
  rewrite <- memcmp_lex. cbv zeta.
  set (cs := if size a <? size b then size a else size b).
  assert (Ecs : to_size_t cs = Nat.min (Z.to_nat (size a)) (Z.to_nat (size b))).
  { subst cs. destruct (Z.ltb_spec (size a) (size b));
      rewrite to_size_t_id by lia; lia. }
  assert (Er : (if cs =? 0 then 0
                else memcmp m (data a) (data b) (to_size_t cs))
               = memcmp m (data a) (data b)
                   (Nat.min (Z.to_nat (size a)) (Z.to_nat (size b)))).
  { rewrite <- Ecs. destruct (Z.eqb_spec cs 0) as [->|]; reflexivity. }
  rewrite Er.
  assert (E1 : (size a =? size b) = (Z.to_nat (size a) =? Z.to_nat (size b))%nat).
  { destruct (Z.eqb_spec (size a) (size b)), (Nat.eqb_spec (Z.to_nat (size a))
      (Z.to_nat (size b))); auto; lia. }
  assert (E2 : (size b <? size a) = (Z.to_nat (size b) <? Z.to_nat (size a))%nat).
  { destruct (Z.ltb_spec (size b) (size a)), (Nat.ltb_spec (Z.to_nat (size b))
      (Z.to_nat (size a))); auto; lia. }
  rewrite E1, E2. reflexivity.
Qed.

End ByteComparison.

Lemma lex_compare_opp : forall x y, lex_compare x y = - lex_compare y x.
Proof.
  induction x as [|a x IH]; intros [|b y]; try reflexivity.
  cbn [lex_compare]. rewrite (Z.eqb_sym b a).
  destruct (Z.eqb_spec a b); [apply IH|].
  rewrite <- Z.sgn_opp. f_equal. lia.
Qed.

Lemma lex_compare_eq : forall x y, lex_compare x y = 0 <-> x = y.
Proof.
  induction x as [|a x IH]; intros [|b y]; cbn [lex_compare];
    try (split; [lia | discriminate]); [tauto|].
  destruct (Z.eqb_spec a b) as [->|Hne].
  - rewrite IH. split; [intros ->; reflexivity | intros H; now injection H].
  - split; [|intros H; injection H as H _; contradiction].
    intros H. apply Z.sgn_null_iff in H. lia.
Qed.

Lemma lex_compare_neg_trans : forall x y z,
  lex_compare x y < 0 -> lex_compare y z < 0 -> lex_compare x z < 0.
Proof.
  induction x as [|a x IH]; intros [|b y] [|c z]; cbn [lex_compare];
    try lia.
  destruct (Z.eqb_spec a b) as [->|Hab].
  - destruct (Z.eqb_spec b c) as [->|Hbc]; [apply IH | auto].
  - destruct (Z.eqb_spec b c) as [->|Hbc].
    + destruct (Z.eqb_spec a c); [contradiction | auto].
    + intros H1 H2.
      apply Z.sgn_neg_iff in H1. apply Z.sgn_neg_iff in H2.
      destruct (Z.eqb_spec a c); [lia|]. apply Z.sgn_neg_iff. lia.
Qed.

(** X1. [strview_is_match] decides equality of content: two views match
    exactly when they have the same size and the same bytes. *)
Theorem strview_is_match_iff (m : mem) (a b : strview_t) :
  0 <= size a <= INT_MAX ->
  strview_is_match m a b = true <->
  size a = size b /\ bytes m a = bytes m b.
Proof.
  intros Ha. unfold strview_is_match. rewrite to_size_t_id by assumption.
  rewrite andb_true_iff, orb_true_iff, !Z.eqb_eq, memcmp_zero_bytes.
  unfold bytes, content. split.
  - intros [Hs [Hd|Hm]]; split; auto.
    + now rewrite Hd, Hs.
    + now rewrite <- Hs.
  - intros [Hs Hb]. split; auto. right. now rewrite <- Hs in Hb.
Qed.

Lemma strview_is_match_iff_witness :
  strview_is_match date_mem {| data := 100; size := 1 |}
    {| data := 102; size := 1 |} = true <->
  1 = 1 /\ bytes date_mem {| data := 100; size := 1 |}
           = bytes date_mem {| data := 102; size := 1 |}.
Proof.
  apply (strview_is_match_iff date_mem {| data := 100; size := 1 |}
           {| data := 102; size := 1 |}).
  unfold INT_MAX. cbn. lia.
Defined.

(** X2. [strview_is_match] is symmetric and transitive (and every view
    matches itself), so it is an equivalence on views. *)
Theorem strview_is_match_equivalence (m : mem) (a b c : strview_t) :
  0 <= size a <= INT_MAX -> 0 <= size b <= INT_MAX ->
  strview_is_match m a a = true /\
  strview_is_match m a b = strview_is_match m b a /\
  (strview_is_match m a b = true -> strview_is_match m b c = true ->
   strview_is_match m a c = true).
Proof.
  intros Ha Hb. unfold strview_is_match.
  rewrite !to_size_t_id by assumption. repeat split.
  - now rewrite !Z.eqb_refl.
  - rewrite (Z.eqb_sym (size b)), (Z.eqb_sym (data b)).
    destruct (Z.eqb_spec (size a) (size b)) as [E|]; [|reflexivity].
    rewrite E, (memcmp_opp m _ (data a)).
    f_equal. f_equal.
    destruct (Z.eqb_spec (memcmp m (data b) (data a) (Z.to_nat (size b))) 0),
      (Z.eqb_spec (- memcmp m (data b) (data a) (Z.to_nat (size b))) 0);
      auto; lia.
  - rewrite !andb_true_iff, !orb_true_iff, !Z.eqb_eq, !memcmp_zero_bytes.
    intros [Hs1 H1] [Hs2 H2]. split; [congruence|].
    right. rewrite Hs1.
    transitivity (map (fun c => c mod 256) (read m (data b) (Z.to_nat (size b)))).
    + destruct H1 as [->|H1]; [reflexivity|]. now rewrite <- Hs1.
    + destruct H2 as [->|H2]; [reflexivity | exact H2].
Qed.

Lemma strview_is_match_equivalence_witness :
  strview_is_match date_mem {| data := 100; size := 1 |}
    {| data := 100; size := 1 |} = true /\
  strview_is_match date_mem {| data := 100; size := 1 |}
    {| data := 102; size := 1 |}
  = strview_is_match date_mem {| data := 102; size := 1 |}
      {| data := 100; size := 1 |} /\
  (strview_is_match date_mem {| data := 100; size := 1 |}
     {| data := 102; size := 1 |} = true ->
   strview_is_match date_mem {| data := 102; size := 1 |}
     {| data := 100; size := 1 |} = true ->
   strview_is_match date_mem {| data := 100; size := 1 |}
     {| data := 100; size := 1 |} = true).
Proof.
  apply (strview_is_match_equivalence date_mem {| data := 100; size := 1 |}
           {| data := 102; size := 1 |} {| data := 100; size := 1 |});
    unfold INT_MAX; cbn; lia.
Defined.

(** X3. [strview_compare] is the lexicographic order on the views' bytes,
    a proper prefix sorting before the longer view: its sign is
    [lex_compare] of the two byte strings. *)
Theorem strview_compare_lexicographic (m : mem) (a b : strview_t) :
  0 <= size a <= INT_MAX -> 0 <= size b <= INT_MAX ->
  Z.sgn (strview_compare m a b) = lex_compare (bytes m a) (bytes m b).
Proof.
  intros Ha Hb. unfold strview_compare, bytes, content. cbv zeta.
  rewrite <- memcmp_lex. cbv zeta.
  set (cs := if size a <? size b then size a else size b).
  assert (Ecs : to_size_t cs = Nat.min (Z.to_nat (size a)) (Z.to_nat (size b))).
  { subst cs. destruct (Z.ltb_spec (size a) (size b));
      rewrite to_size_t_id by lia; lia. }
  assert (Er : (if cs =? 0 then 0
                else memcmp m (data a) (data b) (to_size_t cs))
               = memcmp m (data a) (data b)
                   (Nat.min (Z.to_nat (size a)) (Z.to_nat (size b)))).
  { rewrite <- Ecs. destruct (Z.eqb_spec cs 0) as [->|]; reflexivity. }
  rewrite Er.
  assert (E1 : (size a =? size b) = (Z.to_nat (size a) =? Z.to_nat (size b))%nat).
  { destruct (Z.eqb_spec (size a) (size b)), (Nat.eqb_spec (Z.to_nat (size a))
      (Z.to_nat (size b))); auto; lia. }
  assert (E2 : (size b <? size a) = (Z.to_nat (size b) <? Z.to_nat (size a))%nat).
  { destruct (Z.ltb_spec (size b) (size a)), (Nat.ltb_spec (Z.to_nat (size b))
      (Z.to_nat (size a))); auto; lia. }
  rewrite E1, E2. reflexivity.
Qed.

Lemma strview_compare_lexicographic_witness :
  Z.sgn (strview_compare date_mem {| data := 100; size := 4 |}
           {| data := 105; size := 2 |})
  = lex_compare (bytes date_mem {| data := 100; size := 4 |})
      (bytes date_mem {| data := 105; size := 2 |}).
Proof.
  apply (strview_compare_lexicographic date_mem {| data := 100; size := 4 |}
           {| data := 105; size := 2 |}); unfold INT_MAX; cbn; lia.
Defined.

(** X4. [strview_compare] is antisymmetric, and it returns 0 exactly on
    the pairs [strview_is_match] accepts. *)
Theorem strview_compare_antisym_match (m : mem) (a b : strview_t) :
  0 <= size a <= INT_MAX -> 0 <= size b <= INT_MAX ->
  Z.sgn (strview_compare m a b) = - Z.sgn (strview_compare m b a) /\
  (strview_compare m a b = 0 <-> strview_is_match m a b = true).
Proof.
  intros Ha Hb. split.
  - rewrite !compare_sgn_lex by assumption. apply lex_compare_opp.
  - rewrite <- Z.sgn_null_iff, compare_sgn_lex, lex_compare_eq by assumption.
    unfold strview_is_match. rewrite to_size_t_id by assumption.
    rewrite andb_true_iff, orb_true_iff, !Z.eqb_eq, memcmp_zero_bytes.
    split.
    + intros E. assert (Hs : size a = size b).
      { apply (f_equal (@length Z)) in E. rewrite !bytes_length in E. lia. }
      split; [exact Hs|]. right. unfold bytes, content in E.
      now rewrite <- Hs in E.
    + intros [Hs [Hd|Hm]].
      * now apply bytes_same_span.
      * unfold bytes, content. now rewrite <- Hs.
Qed.

Lemma strview_compare_antisym_match_witness :
  Z.sgn (strview_compare date_mem {| data := 100; size := 4 |}
           {| data := 105; size := 2 |})
  = - Z.sgn (strview_compare date_mem {| data := 105; size := 2 |}
               {| data := 100; size := 4 |}) /\
  (strview_compare date_mem {| data := 100; size := 4 |}
     {| data := 105; size := 2 |} = 0 <->
   strview_is_match date_mem {| data := 100; size := 4 |}
     {| data := 105; size := 2 |} = true).
Proof.
  apply (strview_compare_antisym_match date_mem {| data := 100; size := 4 |}
           {| data := 105; size := 2 |}); unfold INT_MAX; cbn; lia.
Defined.

(** X5. [strview_compare] is transitive: if [a] sorts before [b] and [b]
    before [c], then [a] sorts before [c]. *)
Theorem strview_compare_transitive (m : mem) (a b c : strview_t) :
  0 <= size a <= INT_MAX -> 0 <= size b <= INT_MAX ->
  0 <= size c <= INT_MAX ->
  strview_compare m a b < 0 -> strview_compare m b c < 0 ->
  strview_compare m a c < 0.
Proof.
  intros Ha Hb Hc H1 H2.
  apply Z.sgn_neg_iff in H1. apply Z.sgn_neg_iff in H2. apply Z.sgn_neg_iff.
  rewrite compare_sgn_lex in * by assumption.
  assert (L1 : lex_compare (bytes m a) (bytes m b) < 0) by lia.
  assert (L2 : lex_compare (bytes m b) (bytes m c) < 0) by lia.
  pose proof (lex_compare_neg_trans _ _ _ L1 L2) as L.
  pose proof (compare_sgn_lex m a c Ha Hc) as E.
  assert (S3 : Z.sgn (strview_compare m a c) < 0) by lia.
  destruct (strview_compare m a c); cbn in S3; lia.
Qed.

Lemma strview_compare_transitive_witness :
  strview_compare date_mem {| data := 108; size := 2 |}
    {| data := 100; size := 4 |} < 0.
Proof.
  apply (strview_compare_transitive date_mem {| data := 108; size := 2 |}
           {| data := 105; size := 2 |} {| data := 100; size := 4 |});
    try (unfold INT_MAX; cbn; lia); reflexivity.
Defined.

(** ** Prefix test and case folding *)

Lemma read_firstn m : forall k n p,
  (k <= n)%nat -> firstn k (read m p n) = read m p k.
Proof.
  induction k as [|k IH]; intros [|n] p H; try reflexivity; [lia|].
  cbn [read firstn]. f_equal. apply IH. lia.
Qed.

Lemma read_skipn m : forall k n p,
  skipn k (read m p n) = read m (p + Z.of_nat k) (n - k).
Proof.
  induction k as [|k IH]; intros [|n] p.
  - reflexivity.
  - cbn [skipn]. now rewrite Nat.sub_0_r, Z.add_0_r.
  - reflexivity.
  - cbn [skipn read Nat.sub]. rewrite IH. f_equal. lia.
Qed.

(** X6. [strview_starts_with] with a valid second argument holds exactly
    when the first view is at least as long and its leading bytes are the
    bytes of the second. *)
Theorem strview_starts_with_iff (m : mem) (a b : strview_t) :
  0 <= size a <= INT_MAX -> valid_view b ->
  strview_starts_with m a b = true <->
  size b <= size a /\ firstn (Z.to_nat (size b)) (bytes m a) = bytes m b.
Proof.
  intros Ha Hb. unfold strview_starts_with.
  rewrite (valid_view_is_valid _ Hb). cbn [negb].
  destruct Hb as [_ Hb]. rewrite to_size_t_id by assumption.
  rewrite andb_true_iff, orb_true_iff, Z.leb_le, !Z.eqb_eq, memcmp_zero_bytes.
  unfold bytes, content.
  split.
  - intros [Hs H]. split; [exact Hs|].
    rewrite firstn_map, read_firstn by lia.
    destruct H as [->|H]; [reflexivity | exact H].
  - intros [Hs H]. split; [exact Hs|]. right.
    rewrite firstn_map, read_firstn in H by lia. exact H.
Qed.

Lemma strview_starts_with_iff_witness :
  strview_starts_with date_mem {| data := 100; size := 10 |}
    {| data := 100; size := 4 |} = true <->
  4 <= 10 /\
  firstn (Z.to_nat 4) (bytes date_mem {| data := 100; size := 10 |})
  = bytes date_mem {| data := 100; size := 4 |}.
Proof.
  apply (strview_starts_with_iff date_mem {| data := 100; size := 10 |}
           {| data := 100; size := 4 |});
    unfold valid_view, INT_MAX; cbn; lia.
Defined.

Lemma toupper_range c : 0 <= c < 4294967296 -> 0 <= toupper c < 4294967296.
Proof.
  intros H. unfold toupper.
  destruct (Z.leb_spec 97 c), (Z.leb_spec c 122); cbn [andb]; lia.
Qed.

Lemma memcmp_nocase_zero m : forall n a b,
  memcmp_nocase m a b n = 0 <->
  map (fun c => toupper (c mod 4294967296)) (read m a n)
  = map (fun c => toupper (c mod 4294967296)) (read m b n).
Proof.
  induction n as [|n IH]; intros a b; cbn [memcmp_nocase read map].
  - tauto.
  - assert (Ra : 0 <= toupper (m a mod 4294967296) < 4294967296)
      by (apply toupper_range, Z.mod_pos_bound; lia).
    assert (Rb : 0 <= toupper (m b mod 4294967296) < 4294967296)
      by (apply toupper_range, Z.mod_pos_bound; lia).
    set (x := toupper (m a mod 4294967296)) in *.
    set (y := toupper (m b mod 4294967296)) in *.
    assert (E : int_sub x y = 0 <-> x = y).
    { unfold int_sub, wrap_int. split.
      - intros H.
        pose proof (Z.div_mod (x - y + 2147483648) 4294967296) as D.
        pose proof (Z.mod_pos_bound (x - y + 2147483648) 4294967296) as B.
        lia.
      - intros ->. rewrite Z.sub_diag. reflexivity. }
    destruct (Z.eqb_spec (int_sub x y) 0) as [H0|H0].
    + apply E in H0. rewrite IH, H0.
      split; [intros ->; reflexivity | intros H; now injection H].
    + split; [contradiction|]. intros H. injection H as H _.
      apply E in H. contradiction.
Qed.

(** The storage built by [mem_of_segments] holds [char] values when the
    listed bytes are. *)
Lemma mem_of_segments_char_storage segs :
  Forall (fun seg => Forall (fun c => -128 <= c <= 127) (snd seg)) segs ->
  char_storage (mem_of_segments segs).
Proof.
  intros H. left. intros a.
  induction H as [|[base l] segs Hl _ IH]; cbn [mem_of_segments].
  - lia.
  - destruct (_ && _); [|exact IH].
    cbn [snd] in Hl. clear IH. revert Hl. generalize (Z.to_nat (a - base)).
    induction l as [|c l IHl]; intros n Hl.
    + destruct n; cbn; lia.
    + inversion Hl; subst. destruct n; cbn [nth]; auto.
Qed.

(** X7. [strview_is_match_nocase] decides equality of the upper-cased
    content: two views match ignoring case exactly when they have the same
    size and the same characters after [toupper]. *)
Theorem strview_is_match_nocase_iff (m : mem) (a b : strview_t) :
  0 <= size a <= INT_MAX ->
  strview_is_match_nocase m a b = true <->
  size a = size b /\ folded m a = folded m b.
Proof.
  intros Ha.
  unfold strview_is_match_nocase. rewrite to_size_t_id by assumption.
  rewrite andb_true_iff, orb_true_iff, !Z.eqb_eq, memcmp_nocase_zero.
  unfold folded, content. split.
  - intros [Hs [Hd|Hm]]; split; auto.
    + now rewrite Hd, Hs.
    + now rewrite <- Hs.
  - intros [Hs Hb]. split; auto. right. now rewrite <- Hs in Hb.
Qed.

Lemma strview_is_match_nocase_iff_witness :
  strview_is_match_nocase date_mem {| data := 100; size := 1 |}
    {| data := 102; size := 1 |} = true <->
  1 = 1 /\ folded date_mem {| data := 100; size := 1 |}
           = folded date_mem {| data := 102; size := 1 |}.
Proof.
  apply (strview_is_match_nocase_iff date_mem {| data := 100; size := 1 |}
           {| data := 102; size := 1 |}).
  unfold INT_MAX. cbn. lia.
Defined.

Lemma char_byte_inj x y :
  (-128 <= x <= 127 /\ -128 <= y <= 127) \/ (0 <= x <= 255 /\ 0 <= y <= 255) ->
  x mod 256 = y mod 256 -> x = y.
Proof.
  intros Hxy H.
  pose proof (Z.div_mod x 256). pose proof (Z.mod_pos_bound x 256).
  pose proof (Z.div_mod y 256). pose proof (Z.mod_pos_bound y 256).
  lia.
Qed.

(** X8. On storage of [char] values, two views that match
    case-sensitively also match ignoring case. *)
Theorem strview_is_match_implies_nocase (m : mem) (a b : strview_t) :
  char_storage m -> 0 <= size a <= INT_MAX ->
  strview_is_match m a b = true ->
  strview_is_match_nocase m a b = true.
Proof.
  intros Hchar Ha Hmatch.
  unfold strview_is_match in Hmatch. unfold strview_is_match_nocase.
  rewrite to_size_t_id in * by assumption.
  rewrite andb_true_iff, orb_true_iff, !Z.eqb_eq in *.
  rewrite memcmp_zero_bytes in Hmatch. rewrite memcmp_nocase_zero.
  destruct Hmatch as [Hs H]. split; [exact Hs|].
  destruct H as [H|H]; [left; exact H | right].
  revert H. generalize (Z.to_nat (size a)) (data a) (data b).
  induction n as [|n IH]; intros p q H; [reflexivity|].
  cbn [read map] in *. injection H as H0 H.
  rewrite (IH _ _ H).
  rewrite (char_byte_inj (m p) (m q)); [reflexivity| |exact H0].
  destruct Hchar as [Hc|Hc]; [left|right]; split; apply Hc.
Qed.

Lemma strview_is_match_implies_nocase_witness :
  strview_is_match_nocase date_mem {| data := 100; size := 1 |}
    {| data := 102; size := 1 |} = true.
Proof.
  apply (strview_is_match_implies_nocase date_mem {| data := 100; size := 1 |}
           {| data := 102; size := 1 |}).
  - apply mem_of_segments_char_storage.
    repeat (constructor; cbn [snd]; try lia).
  - unfold INT_MAX. cbn. lia.
  - reflexivity.
Defined.

(** ** Slices *)

Lemma strview_sub_cases v begin end_ :
  valid_view v -> 0 < size v -> in_int begin -> in_int end_ ->
  strview_sub v begin end_ = STRVIEW_INVALID \/
  exists b e,
    0 <= b <= e /\ e <= size v /\ b < size v /\
    b = Z.max 0 (resolve_index (size v) begin) /\
    e = Z.min (resolve_index (size v) end_) (size v) /\
    strview_sub v begin end_ = {| data := data v + b; size := e - b |}.
Proof.
  intros [Hd Hs] Hne Hb He. unfold strview_sub, resolve_index.
  rewrite (null_test_valid _ Hd).
  destruct (Z.eqb_spec (size v) 0); [lia|]. cbn [negb andb].
  assert (Eb : (if begin <? 0 then int_add (size v) begin else begin)
               = (if begin <? 0 then size v + begin else begin)).
  { destruct (Z.ltb_spec begin 0); [unwrap|]; reflexivity. }
  assert (Ee : (if end_ <? 0 then int_add (size v) end_ else end_)
               = (if end_ <? 0 then size v + end_ else end_)).
  { destruct (Z.ltb_spec end_ 0); [unwrap|]; reflexivity. }
  rewrite Eb, Ee.
  set (b := if begin <? 0 then size v + begin else begin).
  set (e := if end_ <? 0 then size v + end_ else end_).
  assert (Rb : INT_MIN <= b <= INT_MAX).
  { subst b. destruct (Z.ltb_spec begin 0); int_range. }
  assert (Re : INT_MIN <= e <= INT_MAX).
  { subst e. destruct (Z.ltb_spec end_ 0); int_range. }
  destruct (Z.leb_spec b e); cbn [andb]; [|left; reflexivity].
  destruct (Z.ltb_spec b (size v)); cbn [andb]; [|left; reflexivity].
  destruct (Z.leb_spec 0 e); [|left; reflexivity].
  right. exists (Z.max 0 b), (Z.min e (size v)).
  repeat split; try lia.
  destruct (Z.ltb_spec b 0), (Z.ltb_spec (size v) e); unwrap; f_equal; lia.
Qed.

(** X9. The "rest of the view" idiom: for every Invalid, empty or
    non-empty view, the slice from 0 to [INT_MAX], and the slice from 0 to
    the view's size, are the view itself. *)
Theorem strview_sub_whole (v : strview_t) :
  wf_view v ->
  strview_sub v 0 INT_MAX = v /\ strview_sub v 0 (size v) = v.
Proof.
  intros [->|[Hd Hs]]; [split; reflexivity|].
  destruct v as [p s]; cbn [data size] in *.
  unfold strview_sub. cbn [data size].
  rewrite (null_test_valid _ Hd). cbn [negb andb Z.ltb Z.compare].
  destruct (Z.eqb_spec s 0) as [->|Hne]; [split; reflexivity|].
  cbn [negb].
  change (INT_MAX <? 0) with false. cbv iota.
  change (0 <=? INT_MAX) with true.
  destruct (Z.ltb_spec s 0); [lia|].
  destruct (Z.leb_spec 0 s); [|lia]. destruct (Z.ltb_spec 0 s); [|lia].
  cbn [andb].
  destruct (Z.ltb_spec s INT_MAX), (Z.ltb_spec s s); try lia;
    unwrap; split; f_equal; lia.
Qed.

Lemma strview_sub_whole_witness :
  strview_sub {| data := 100; size := 10 |} 0 INT_MAX
  = {| data := 100; size := 10 |} /\
  strview_sub {| data := 100; size := 10 |} 0 10 = {| data := 100; size := 10 |}.
Proof.
  apply (strview_sub_whole {| data := 100; size := 10 |}).
  right. unfold valid_view, INT_MAX. cbn. lia.
Defined.

(** X10. [strview_sub] never leaves its source: for a valid view and any
    two [int] indices the result is either the Invalid view or a valid view
    of non-negative size whose span lies inside the source. *)
Theorem strview_sub_inside (v : strview_t) (begin end_ : Z) :
  valid_view v -> in_int begin -> in_int end_ ->
  let r := strview_sub v begin end_ in
  r = STRVIEW_INVALID \/
  (strview_is_valid r = true /\ 0 <= size r /\ span_inside r v).
Proof.
  intros Hv Hb He. cbv zeta.
  destruct (Z.eq_dec (size v) 0) as [Hz|Hnz].
  - right. unfold strview_sub. rewrite Hz, Z.eqb_refl, andb_false_r.
    destruct Hv as [Hd Hs].
    unfold strview_is_valid, span_inside. cbn [data size].
    rewrite (null_test_valid _ Hd). repeat split; lia.
  - assert (Hpos : 0 < size v) by (destruct Hv; lia).
    destruct (strview_sub_cases v begin end_ Hv Hpos Hb He)
      as [E|(b & e & Hbe & He' & Hb' & _ & _ & E)]; [left; exact E|].
    right. rewrite E. destruct Hv as [Hd Hs].
    unfold strview_is_valid, span_inside. cbn [data size].
    rewrite null_test_valid by lia. repeat split; lia.
Qed.

Lemma strview_sub_inside_witness :
  strview_sub {| data := 100; size := 10 |} (-1000) 2 = STRVIEW_INVALID \/
  (strview_is_valid (strview_sub {| data := 100; size := 10 |} (-1000) 2) = true /\
   0 <= size (strview_sub {| data := 100; size := 10 |} (-1000) 2) /\
   span_inside (strview_sub {| data := 100; size := 10 |} (-1000) 2)
     {| data := 100; size := 10 |}).
Proof.
  apply (strview_sub_inside {| data := 100; size := 10 |} (-1000) 2);
    unfold valid_view, in_int, INT_MIN, INT_MAX; cbn; lia.
Defined.

(** X11. For indices [0 <= begin <= end <= size] the slice holds exactly
    the characters of the source from [begin] up to [end]. *)
Theorem strview_sub_content (m : mem) (v : strview_t) (begin end_ : Z) :
  valid_view v -> 0 <= begin <= end_ -> end_ <= size v ->
  content m (strview_sub v begin end_)
  = firstn (Z.to_nat (end_ - begin)) (skipn (Z.to_nat begin) (content m v)).
Proof.
  intros Hv Hbe He.
  assert (Hs : 0 <= size v <= INT_MAX) by (destruct Hv; assumption).
  destruct (Z.eq_dec (size v) 0) as [Hz|Hnz].
  - unfold strview_sub. rewrite Hz, Z.eqb_refl, andb_false_r.
    replace (end_ - begin) with 0 by lia. reflexivity.
  - assert (Hpos : 0 < size v) by lia.
    assert (Hb : in_int begin) by int_range.
    assert (Hi : in_int end_) by int_range.
    unfold content at 2. rewrite read_skipn, read_firstn by lia.
    destruct (strview_sub_cases v begin end_ Hv Hpos Hb Hi)
      as [E|(b & e & _ & _ & Hlt & Eb & Ee & E)].
    + rewrite E. cbn.
      destruct (Z.eq_dec begin end_) as [->|Hne];
        [now rewrite Z.sub_diag|].
      exfalso. revert E. unfold strview_sub.
      destruct Hv as [Hd _]. rewrite (null_test_valid _ Hd).
      destruct (Z.eqb_spec (size v) 0); [lia|]. cbn [negb andb].
      destruct (Z.ltb_spec begin 0); [lia|].
      destruct (Z.ltb_spec end_ 0); [lia|].
      destruct (Z.leb_spec begin end_); [|lia].
      destruct (Z.ltb_spec begin (size v)); [|lia].
      destruct (Z.leb_spec 0 end_); [|lia].
      cbn [andb]. unfold STRVIEW_INVALID, NULL. intros E.
      injection E as E _. destruct (begin <? 0); lia.
    + rewrite E. unfold resolve_index in Eb, Ee.
      destruct (Z.ltb_spec begin 0); [lia|].
      destruct (Z.ltb_spec end_ 0); [lia|].
      unfold content. cbn [data size].
      replace b with begin by lia. replace e with end_ by lia.
      f_equal. lia.
Qed.

Lemma strview_sub_content_witness :
  content date_mem (strview_sub {| data := 100; size := 10 |} 5 7)
  = firstn (Z.to_nat (7 - 5))
      (skipn (Z.to_nat 5) (content date_mem {| data := 100; size := 10 |})).
Proof.
  apply (strview_sub_content date_mem {| data := 100; size := 10 |} 5 7);
    unfold valid_view, INT_MAX; cbn; lia.
Defined.

(** ** Splitting at a located sub-view *)

(** X12. [strview_split_left] at a valid [pos] that starts inside a valid
    source (its end included) returns the part of the source before
    [pos] and leaves the source running from the start of [pos] to its old
    end; the two pieces together are the original content. *)
Theorem strview_split_left_spec (m : mem) (src pos : strview_t) :
  valid_view src -> valid_view pos ->
  data src <= data pos <= data src + size src ->
  let returned := {| data := data src; size := data pos - data src |} in
  let remaining :=
    {| data := data pos; size := data src + size src - data pos |} in
  strview_split_left (Some src) pos = (returned, Some remaining) /\
  content m returned ++ content m remaining = content m src.
Proof.
  intros Hs Hp [Hlo Hhi]. cbv zeta.
  unfold strview_split_left.
  rewrite (valid_view_is_valid _ Hs), (valid_view_is_valid _ Hp).
  destruct Hs as [Hs0 Hs1]. cbn [andb].
  destruct (Z.leb_spec (data src) (data pos)); [|lia].
  destruct (Z.leb_spec (data pos) (data src + size src)); [|lia].
  cbn [andb]. unwrap.
  rewrite split_index_spec by (try split; int_range). cbv zeta.
  destruct (Z.ltb_spec (data pos - data src) 0); [lia|].
  replace (Z.min (data pos - data src) (size src))
    with (data pos - data src) by lia.
  split.
  - f_equal. f_equal. f_equal; lia.
  - destruct src as [p s]; cbn [data size] in *.
    rewrite (content_split m p s (data pos - p)) by lia.
    f_equal. f_equal. f_equal; lia.
Qed.

Lemma strview_split_left_spec_witness :
  strview_split_left (Some {| data := 100; size := 10 |})
    {| data := 104; size := 1 |}
  = ({| data := 100; size := 4 |}, Some {| data := 104; size := 6 |}) /\
  content date_mem {| data := 100; size := 4 |}
  ++ content date_mem {| data := 104; size := 6 |}
  = content date_mem {| data := 100; size := 10 |}.
Proof.
  apply (strview_split_left_spec date_mem {| data := 100; size := 10 |}
           {| data := 104; size := 1 |});
    unfold valid_view, INT_MAX; cbn; lia.
Defined.

(** X13. [strview_split_left] given a [pos] that is Invalid or starts
    outside the source returns Invalid and leaves the source as it was. *)
Theorem strview_split_left_outside (src pos : strview_t) :
  strview_is_valid pos = false \/ data pos < data src
  \/ data src + size src < data pos ->
  strview_split_left (Some src) pos = (STRVIEW_INVALID, Some src).
Proof.
  intros H. unfold strview_split_left.
  destruct (strview_is_valid src); [|reflexivity].
  destruct H as [->|[H|H]]; [reflexivity| |].
  - destruct (Z.leb_spec (data src) (data pos)); [lia|].
    now rewrite andb_false_r.
  - destruct (Z.leb_spec (data pos) (data src + size src)); [lia|].
    now rewrite andb_false_r.
Qed.

Lemma strview_split_left_outside_witness :
  strview_split_left (Some {| data := 100; size := 10 |})
    {| data := 200; size := 1 |}
  = (STRVIEW_INVALID, Some {| data := 100; size := 10 |}).
Proof.
  apply (strview_split_left_outside {| data := 100; size := 10 |}
           {| data := 200; size := 1 |}).
  right. right. cbn. lia.
Defined.

(** X14. [strview_split_right] given a [pos] that is Invalid or whose end
    lies outside the source returns Invalid and leaves the source as it
    was. *)
Theorem strview_split_right_outside (src pos : strview_t) :
  strview_is_valid pos = false \/ data pos + size pos < data src
  \/ data src + size src < data pos + size pos ->
  strview_split_right (Some src) pos = (STRVIEW_INVALID, Some src).
Proof.
  intros H. unfold strview_split_right.
  destruct (strview_is_valid src); [|reflexivity].
  destruct H as [->|[H|H]]; [reflexivity| |];
    destruct (strview_is_valid pos); cbn [andb]; try reflexivity.
  - destruct (Z.leb_spec (data src) (data pos + size pos)); [lia|].
    reflexivity.
  - destruct (Z.leb_spec (data pos + size pos) (data src + size src)); [lia|].
    now rewrite andb_false_r.
Qed.

Lemma strview_split_right_outside_witness :
  strview_split_right (Some {| data := 100; size := 10 |})
    {| data := 108; size := 5 |}
  = (STRVIEW_INVALID, Some {| data := 100; size := 10 |}).
Proof.
  apply (strview_split_right_outside {| data := 100; size := 10 |}
           {| data := 108; size := 5 |}).
  right. right. cbn. lia.
Defined.

(** ** Popping and splitting off everything *)

(** X15. [strview_pop_first_char] on a view with content returns its first
    character and advances the view by one; on an empty or Invalid view it
    returns 0 and leaves the view as it was. *)
Theorem strview_pop_first_char_spec (m : mem) (v : strview_t) :
  wf_view v ->
  strview_pop_first_char m (Some v) =
  match content m v with
  | [] => (0, Some v)
  | c :: _ => (c, Some {| data := data v + 1; size := size v - 1 |})
  end.
Proof.
  intros Hv. pose proof (wf_view_size _ Hv) as Hs.
  unfold strview_pop_first_char.
  destruct (Z.eqb_spec (size v) 0) as [Hz|Hnz]; cbn [negb].
  - unfold content. rewrite Hz. reflexivity.
  - rewrite split_index_spec by (try assumption; int_range). cbv zeta.
    change (1 <? 0) with false. cbv iota.
    replace (Z.min 1 (size v)) with 1 by lia.
    destruct v as [p s]; cbn [data size] in *.
    rewrite content_cons by lia. reflexivity.
Qed.

Lemma strview_pop_first_char_spec_witness :
  strview_pop_first_char date_mem (Some {| data := 100; size := 10 |}) =
  match content date_mem {| data := 100; size := 10 |} with
  | [] => (0, Some {| data := 100; size := 10 |})
  | c :: _ => (c, Some {| data := 101; size := 9 |})
  end.
Proof.
  apply (strview_pop_first_char_spec date_mem {| data := 100; size := 10 |}).
  right. unfold valid_view, INT_MAX. cbn. lia.
Defined.

(** X16. An index at or beyond the size splits off everything: for
    [n >= size] [strview_split_index] with [n] returns the whole view and
    leaves a valid empty view at its end, and with [-n] it returns the
    whole view and leaves a valid empty view at its start. *)
Theorem strview_split_index_all (v : strview_t) (n : Z) :
  valid_view v -> size v <= n <= INT_MAX ->
  strview_split_index (Some v) n
  = (v, Some {| data := data v + size v; size := 0 |}) /\
  strview_split_index (Some v) (- n)
  = (v, Some {| data := data v; size := 0 |}) /\
  strview_is_valid {| data := data v + size v; size := 0 |} = true /\
  strview_is_valid {| data := data v; size := 0 |} = true.
Proof.
  intros [Hd Hs] Hn. unfold strview_split_index.
  rewrite !split_index_spec by (try assumption; int_range). cbv zeta.
  destruct v as [p s]; cbn [data size] in *.
  unfold strview_is_valid. cbn [data]. rewrite !null_test_valid by lia.
  repeat split.
  - destruct (Z.ltb_spec n 0); [lia|].
    replace (Z.min n s) with s by lia. rewrite Z.sub_diag. reflexivity.
  - destruct (Z.ltb_spec (- n) 0).
    + replace (Z.max 0 (s + - n)) with 0 by lia.
      rewrite Z.add_0_r, Z.sub_0_r. reflexivity.
    + replace (Z.min (- n) s) with 0 by lia.
      replace s with 0 by lia. rewrite Z.add_0_r. reflexivity.
Qed.

Lemma strview_split_index_all_witness :
  strview_split_index (Some {| data := 100; size := 10 |}) 12
  = ({| data := 100; size := 10 |}, Some {| data := 110; size := 0 |}) /\
  strview_split_index (Some {| data := 100; size := 10 |}) (- 12)
  = ({| data := 100; size := 10 |}, Some {| data := 100; size := 0 |}) /\
  strview_is_valid {| data := 110; size := 0 |} = true /\
  strview_is_valid {| data := 100; size := 0 |} = true.
Proof.
  apply (strview_split_index_all {| data := 100; size := 10 |} 12);
    unfold valid_view, INT_MAX; cbn; lia.
Defined.

(** ** Trimming *)

Lemma drop_while_end_snoc {A} (f : A -> bool) : forall l x,
  drop_while_end f (l ++ [x]) = if f x then drop_while_end f l else l ++ [x].
Proof.
  induction l as [|y l IH]; intros x; cbn [app drop_while_end].
  - destruct (f x); reflexivity.
  - rewrite IH. destruct (f x) eqn:E; [reflexivity|].
    destruct l; reflexivity.
Qed.

Lemma drop_while_length {A} (f : A -> bool) : forall l,
  (length (drop_while f l) <= length l)%nat.
Proof.
  induction l as [|x l IH]; cbn; [lia|]. destruct (f x); cbn; lia.
Qed.

Lemma drop_while_end_head {A} (f : A -> bool) : forall l,
  drop_while f l = l -> drop_while f (drop_while_end f l) = drop_while_end f l.
Proof.
  intros [|x t] H; [reflexivity|]. cbn [drop_while] in H.
  destruct (f x) eqn:E.
  - pose proof (drop_while_length f t) as L. rewrite H in L. cbn in L. lia.
  - cbn [drop_while_end].
    destruct (drop_while_end f t); rewrite ?E; cbn [drop_while];
      rewrite E; reflexivity.
Qed.

Lemma drop_while_idem {A} (f : A -> bool) : forall l,
  drop_while f (drop_while f l) = drop_while f l.
Proof.
  induction l as [|x l IH]; [reflexivity|]. cbn [drop_while].
  destruct (f x) eqn:E; [exact IH|]. cbn. now rewrite E.
Qed.

Lemma drop_while_end_idem {A} (f : A -> bool) : forall l,
  drop_while_end f (drop_while_end f l) = drop_while_end f l.
Proof.
  induction l as [|x l IH]; [reflexivity|]. cbn [drop_while_end].
  destruct (drop_while_end f l) as [|y t] eqn:E.
  - destruct (f x) eqn:Ex; [reflexivity|]. cbn. now rewrite Ex.
  - cbn [drop_while_end] in *. rewrite IH. reflexivity.
Qed.

Lemma read_snoc m : forall n p,
  read m p (S n) = read m p n ++ [m (p + Z.of_nat n)].
Proof.
  intros n p. replace (S n) with (n + 1)%nat by lia.
  rewrite read_app. reflexivity.
Qed.

Section Trim.

Variable m : mem.
Variable chars : strview_t.
Hypothesis chars_size : 0 <= size chars.

Lemma trim_start_loop_step f str :
  trim_start_loop (S f) m str chars =
  if size str =? 0 then Some str
  else
    do found <- contains_char m chars (m (data str)) CASE_SENSETIVE;
    if (found : bool) then
      trim_start_loop f m
        {| data := data str + 1; size := int_sub (size str) 1 |} chars
    else Some str.
Proof. reflexivity. Qed.

Lemma trim_end_loop_step f str :
  trim_end_loop (S f) m str chars =
  if size str =? 0 then Some str
  else
    do found <-
      contains_char m chars (m (data str + int_sub (size str) 1))
        CASE_SENSETIVE;
    if (found : bool) then
      trim_end_loop f m {| data := data str; size := int_sub (size str) 1 |}
        chars
    else Some str.
Proof. reflexivity. Qed.

Lemma trim_start_loop_spec : forall n p,
  Z.of_nat n <= INT_MAX ->
  exists k,
    (k <= n)%nat /\
    trim_start_loop (S n) m {| data := p; size := Z.of_nat n |} chars
    = Some {| data := p + Z.of_nat k; size := Z.of_nat (n - k) |} /\
    read m (p + Z.of_nat k) (n - k) = drop_while (is_delimiter m chars) (read m p n).
Proof.
  induction n as [|n IH]; intros p Hn.
  - exists O. cbn. rewrite Z.add_0_r. auto.
  - rewrite trim_start_loop_step. cbn [data size].
    destruct (Z.eqb_spec (Z.of_nat (S n)) 0); [lia|].
    rewrite contains_char_spec by assumption.
    cbn [read drop_while].
    destruct (is_delimiter m chars (m p)).
    + unwrap. replace (Z.of_nat (S n) - 1) with (Z.of_nat n) by lia.
      destruct (IH (p + 1)) as (k & Hk & E & R); [lia|].
      exists (S k). split; [lia|]. rewrite E. cbn [Nat.sub].
      replace (p + Z.of_nat (S k)) with (p + 1 + Z.of_nat k) by lia.
      auto.
    + exists O. rewrite Z.add_0_r, Nat.sub_0_r.
      repeat split. lia.
Qed.

Lemma trim_end_loop_spec : forall n p,
  Z.of_nat n <= INT_MAX ->
  exists k,
    (k <= n)%nat /\
    trim_end_loop (S n) m {| data := p; size := Z.of_nat n |} chars
    = Some {| data := p; size := Z.of_nat k |} /\
    read m p k = drop_while_end (is_delimiter m chars) (read m p n).
Proof.
  induction n as [|n IH]; intros p Hn.
  - exists O. cbn. auto.
  - rewrite trim_end_loop_step. cbn [data size].
    destruct (Z.eqb_spec (Z.of_nat (S n)) 0); [lia|].
    rewrite contains_char_spec by assumption.
    unwrap. replace (Z.of_nat (S n) - 1) with (Z.of_nat n) by lia.
    rewrite read_snoc, drop_while_end_snoc.
    destruct (is_delimiter m chars (m (p + Z.of_nat n))).
    + destruct (IH p) as (k & Hk & E & R); [lia|].
      exists k. split; [lia|]. auto.
    + exists (S n). split; [lia|]. now rewrite read_snoc.
Qed.

End Trim.

Lemma view_eta v : {| data := data v; size := size v |} = v.
Proof. now destruct v. Qed.

Lemma strview_trim_start_content m v chars :
  wf_view v -> wf_view chars ->
  exists r,
    strview_trim_start m v chars = Some r /\
    content m r = drop_while (is_delimiter m chars) (content m v) /\
    data r + size r = data v + size v /\
    data v <= data r /\ 0 <= size r.
Proof.
  intros Hv Hc. pose proof (wf_view_size _ Hv) as Hs.
  pose proof (wf_view_size _ Hc) as Hcs.
  destruct (trim_start_loop_spec m chars (proj1 Hcs) (Z.to_nat (size v)) (data v))
    as (k & Hk & E & R); [lia|].
  rewrite Z2Nat.id in E by lia. rewrite view_eta in E.
  eexists. split; [exact E|].
  unfold content. cbn [data size]. rewrite Nat2Z.id.
  repeat split; auto; lia.
Qed.

Lemma strview_trim_end_content m v chars :
  wf_view v -> wf_view chars ->
  exists r,
    strview_trim_end m v chars = Some r /\
    content m r = drop_while_end (is_delimiter m chars) (content m v) /\
    data r = data v /\ 0 <= size r <= size v.
Proof.
  intros Hv Hc. pose proof (wf_view_size _ Hv) as Hs.
  pose proof (wf_view_size _ Hc) as Hcs.
  destruct (trim_end_loop_spec m chars (proj1 Hcs) (Z.to_nat (size v)) (data v))
    as (k & Hk & E & R); [lia|].
  rewrite Z2Nat.id in E by lia. rewrite view_eta in E.
  eexists. split; [exact E|].
  unfold content. cbn [data size]. rewrite Nat2Z.id.
  repeat split; auto; lia.
Qed.

Lemma view_ext (a b : strview_t) : data a = data b -> size a = size b -> a = b.
Proof. destruct a, b; cbn; intros -> ->; reflexivity. Qed.

Lemma wf_view_inside v r :
  wf_view v -> data v <= data r -> 0 <= size r ->
  data r + size r <= data v + size v -> wf_view r.
Proof.
  intros [->|[Hd Hs]] H1 H2 H3.
  - left. unfold STRVIEW_INVALID, NULL in *. cbn [data size] in *.
    apply view_ext; cbn; unfold NULL; lia.
  - right. unfold valid_view. lia.
Qed.

(** X17. [strview_trim_start] removes exactly the leading characters that
    belong to [chars_to_trim]: the result ends where the source ends and
    holds the source's content from its first character outside the set. *)
Theorem strview_trim_start_spec (m : mem) (v chars : strview_t) :
  wf_view v -> wf_view chars ->
  exists r,
    strview_trim_start m v chars = Some r /\
    content m r = drop_while (is_delimiter m chars) (content m v) /\
    data r + size r = data v + size v /\
    data v <= data r /\ 0 <= size r.
Proof.
  intros Hv Hc. pose proof (wf_view_size _ Hv) as Hs.
  pose proof (wf_view_size _ Hc) as Hcs.
  destruct (trim_start_loop_spec m chars (proj1 Hcs) (Z.to_nat (size v)) (data v))
    as (k & Hk & E & R); [lia|].
  rewrite Z2Nat.id in E by lia. rewrite view_eta in E.
  eexists. split; [exact E|].
  unfold content. cbn [data size]. rewrite Nat2Z.id.
  repeat split; auto; lia.
Qed.

Lemma strview_trim_start_spec_witness :
  exists r,
    strview_trim_start trim_mem {| data := 100; size := 10 |}
      {| data := 200; size := 3 |} = Some r /\
    content trim_mem r
    = drop_while (is_delimiter trim_mem {| data := 200; size := 3 |})
        (content trim_mem {| data := 100; size := 10 |}) /\
    data r + size r = 100 + 10 /\ 100 <= data r /\ 0 <= size r.
Proof.
  apply (strview_trim_start_spec trim_mem {| data := 100; size := 10 |}
           {| data := 200; size := 3 |});
    right; unfold valid_view, INT_MAX; cbn; lia.
Defined.

(** X18. [strview_trim_end] removes exactly the trailing characters that
    belong to [chars_to_trim]: the result starts where the source starts
    and holds the source's content up to its last character outside the
    set. *)
Theorem strview_trim_end_spec (m : mem) (v chars : strview_t) :
  wf_view v -> wf_view chars ->
  exists r,
    strview_trim_end m v chars = Some r /\
    content m r = drop_while_end (is_delimiter m chars) (content m v) /\
    data r = data v /\ 0 <= size r <= size v.
Proof.
  intros Hv Hc. pose proof (wf_view_size _ Hv) as Hs.
  pose proof (wf_view_size _ Hc) as Hcs.
  destruct (trim_end_loop_spec m chars (proj1 Hcs) (Z.to_nat (size v)) (data v))
    as (k & Hk & E & R); [lia|].
  rewrite Z2Nat.id in E by lia. rewrite view_eta in E.
  eexists. split; [exact E|].
  unfold content. cbn [data size]. rewrite Nat2Z.id.
  repeat split; auto; lia.
Qed.

Lemma strview_trim_end_spec_witness :
  exists r,
    strview_trim_end trim_mem {| data := 100; size := 10 |}
      {| data := 200; size := 3 |} = Some r /\
    content trim_mem r
    = drop_while_end (is_delimiter trim_mem {| data := 200; size := 3 |})
        (content trim_mem {| data := 100; size := 10 |}) /\
    data r = 100 /\ 0 <= size r <= 10.
Proof.
  apply (strview_trim_end_spec trim_mem {| data := 100; size := 10 |}
           {| data := 200; size := 3 |});
    right; unfold valid_view, INT_MAX; cbn; lia.
Defined.

(** X19. [strview_trim] trims both ends, its result lies inside the
    source, and it is idempotent: trimming the result again with the same
    character set gives the result itself. *)
Theorem strview_trim_idempotent (m : mem) (v chars : strview_t) :
  wf_view v -> wf_view chars ->
  exists r,
    strview_trim m v chars = Some r /\
    content m r
    = drop_while_end (is_delimiter m chars)
        (drop_while (is_delimiter m chars) (content m v)) /\
    data v <= data r /\ data r + size r <= data v + size v /\
    strview_trim m r chars = Some r.
Proof.
  intros Hv Hc.
  destruct (strview_trim_start_content m v chars Hv Hc)
    as (s & Es & Cs & Hend & Hlo & Hsz).
  assert (Hws : wf_view s) by (apply (wf_view_inside v); auto; lia).
  destruct (strview_trim_end_content m s chars Hws Hc)
    as (r & Er & Cr & Hd & Hr).
  assert (Hwr : wf_view r) by (apply (wf_view_inside s); auto; lia).
  exists r. unfold strview_trim. rewrite Es, Er.
  split; [reflexivity|]. split; [now rewrite Cr, Cs|].
  split; [lia|]. split; [lia|].
  destruct (strview_trim_start_content m r chars Hwr Hc)
    as (s' & Es' & Cs' & Hend' & Hlo' & Hsz').
  assert (Efix : drop_while (is_delimiter m chars) (content m r) = content m r).
  { rewrite Cr. apply drop_while_end_head. rewrite Cs. apply drop_while_idem. }
  assert (Hs' : s' = r).
  { rewrite Efix in Cs'. apply (f_equal (@length char)) in Cs'.
    rewrite !content_length in Cs'.
    pose proof (wf_view_size _ Hwr). apply view_ext; lia. }
  subst s'. rewrite Es'.
  destruct (strview_trim_end_content m r chars Hwr Hc)
    as (r' & Er' & Cr' & Hd' & Hr').
  assert (Hr'eq : r' = r).
  { rewrite Cr, drop_while_end_idem, <- Cr in Cr'.
    apply (f_equal (@length char)) in Cr'. rewrite !content_length in Cr'.
    apply view_ext; lia. }
  subst r'. exact Er'.
Qed.

Lemma strview_trim_idempotent_witness :
  exists r,
    strview_trim trim_mem {| data := 100; size := 10 |}
      {| data := 200; size := 3 |} = Some r /\
    content trim_mem r
    = drop_while_end (is_delimiter trim_mem {| data := 200; size := 3 |})
        (drop_while (is_delimiter trim_mem {| data := 200; size := 3 |})
           (content trim_mem {| data := 100; size := 10 |})) /\
    100 <= data r /\ data r + size r <= 100 + 10 /\
    strview_trim trim_mem r {| data := 200; size := 3 |} = Some r.
Proof.
  apply (strview_trim_idempotent trim_mem {| data := 100; size := 10 |}
           {| data := 200; size := 3 |});
    right; unfold valid_view, INT_MAX; cbn; lia.
Defined.

(** ** Reference scans *)

Section Scans.

Variable f : ptr -> bool.

Lemma first_at_some : forall n p q,
  first_at f p n = Some q ->
  p <= q < p + Z.of_nat n /\ f q = true /\
  (forall j, p <= j < q -> f j = false).
Proof.
  induction n as [|n IH]; intros p q H; [discriminate|].
  cbn [first_at] in H. destruct (f p) eqn:E.
  - injection H as <-. repeat split; auto; lia.
  - apply IH in H. destruct H as (Hr & Hq & Hb).
    repeat split; auto; try lia.
    intros j Hj. destruct (Z.eq_dec j p) as [->|]; [assumption|].
    apply Hb. lia.
Qed.

Lemma first_at_none : forall n p,
  first_at f p n = None ->
  forall j, p <= j < p + Z.of_nat n -> f j = false.
Proof.
  induction n as [|n IH]; intros p H j Hj; [lia|].
  cbn [first_at] in H. destruct (f p) eqn:E; [discriminate|].
  destruct (Z.eq_dec j p) as [->|]; [assumption|].
  apply (IH (p + 1)); [assumption | lia].
Qed.

Lemma last_at_some : forall n p q,
  last_at f p n = Some q ->
  p - Z.of_nat n < q <= p /\ f q = true /\
  (forall j, q < j <= p -> f j = false).
Proof.
  induction n as [|n IH]; intros p q H; [discriminate|].
  cbn [last_at] in H. destruct (f p) eqn:E.
  - injection H as <-. repeat split; auto; lia.
  - apply IH in H. destruct H as (Hr & Hq & Hb).
    repeat split; auto; try lia.
    intros j Hj. destruct (Z.eq_dec j p) as [->|]; [assumption|].
    apply Hb. lia.
Qed.

Lemma last_at_none : forall n p,
  last_at f p n = None ->
  forall j, p - Z.of_nat n < j <= p -> f j = false.
Proof.
  induction n as [|n IH]; intros p H j Hj; [lia|].
  cbn [last_at] in H. destruct (f p) eqn:E; [discriminate|].
  destruct (Z.eq_dec j p) as [->|]; [assumption|].
  apply (IH (p - 1)); [assumption | lia].
Qed.

End Scans.

(** ** Substring search *)

Section Search.

Variable m : mem.
Variable needle : strview_t.

Lemma find_first_loop_spec : forall k fuel p hay_end,
  (k < fuel)%nat ->
  hay_end - p = size needle + Z.of_nat k - 1 ->
  find_first_loop fuel m p hay_end needle
  = Some match first_at (occurs_at m needle) p k with
         | Some q => (true, q)
         | None => (false, p + Z.of_nat k)
         end.
Proof.
  induction k as [|k IH]; intros [|fuel] p hay_end Hf He; try lia;
    cbn [find_first_loop first_at].
  - destruct (Z.leb_spec (size needle) (hay_end - p)); [lia|].
    now rewrite Z.add_0_r.
  - destruct (Z.leb_spec (size needle) (hay_end - p)); [|lia].
    fold (occurs_at m needle p).
    destruct (occurs_at m needle p); [reflexivity|].
    rewrite (IH fuel (p + 1) hay_end) by lia.
    replace (p + 1 + Z.of_nat k) with (p + Z.of_nat (S k)) by lia.
    reflexivity.
Qed.

Lemma find_last_loop_spec : forall k fuel p hay,
  (k < fuel)%nat ->
  p - hay = Z.of_nat k - 1 ->
  find_last_loop fuel m p hay needle
  = Some match last_at (occurs_at m needle) p k with
         | Some q => (true, q)
         | None => (false, p - Z.of_nat k)
         end.
Proof.
  induction k as [|k IH]; intros [|fuel] p hay Hf He; try lia;
    cbn [find_last_loop last_at].
  - destruct (Z.leb_spec hay p); [lia|]. now rewrite Z.sub_0_r.
  - destruct (Z.leb_spec hay p); [|lia].
    fold (occurs_at m needle p).
    destruct (occurs_at m needle p); [reflexivity|].
    rewrite (IH fuel (p - 1) hay) by lia.
    replace (p - 1 - Z.of_nat k) with (p - Z.of_nat (S k)) by lia.
    reflexivity.
Qed.

(** A candidate position matches the needle, as [strview_is_match] sees
    it, exactly when the needle's bytes stand there. *)
Lemma occurs_at_is_match p :
  0 <= size needle <= INT_MAX ->
  strview_is_match m {| data := p; size := size needle |} needle
  = occurs_at m needle p.
Proof.
  intros Hn. unfold strview_is_match, occurs_at. cbn [data size].
  rewrite Z.eqb_refl. cbn [andb].
  destruct (Z.eqb_spec p (data needle)) as [->|]; [|reflexivity].
  cbn [orb]. symmetry. apply Z.eqb_eq. now apply memcmp_zero_bytes.
Qed.

(** What [strview_find_first] returns on valid views. *)
Lemma find_first_result haystack :
  valid_view haystack -> valid_view needle ->
  strview_find_first m haystack needle =
  Some match first_at (occurs_at m needle) (data haystack)
               (Z.to_nat (size haystack - size needle + 1)) with
       | Some q => {| data := q; size := size needle |}
       | None => STRVIEW_INVALID
       end.
Proof.
  intros [Hd Hs] [Hnd Hns]. unfold strview_find_first.
  rewrite (null_test_valid _ Hd), (null_test_valid _ Hnd). cbn [negb andb].
  destruct (Z.le_gt_cases (size needle) (size haystack)) as [Hle|Hgt].
  - rewrite (find_first_loop_spec
               (Z.to_nat (size haystack - size needle + 1))) by lia.
    destruct (first_at _ _ _); reflexivity.
  - replace (Z.to_nat (size haystack - size needle + 1)) with O by lia.
    cbn [find_first_loop first_at].
    destruct (Z.leb_spec (size needle)
                (data haystack + size haystack - data haystack)); [lia|].
    reflexivity.
Qed.

(** What [strview_find_last] returns on valid views. *)
Lemma find_last_result haystack :
  valid_view haystack -> valid_view needle ->
  strview_find_last m haystack needle =
  Some match last_at (occurs_at m needle)
               (data haystack + (size haystack - size needle))
               (Z.to_nat (size haystack - size needle + 1)) with
       | Some q => {| data := q; size := size needle |}
       | None => STRVIEW_INVALID
       end.
Proof.
  intros [Hd Hs] [Hnd Hns]. unfold strview_find_last.
  rewrite (null_test_valid _ Hd), (null_test_valid _ Hnd). cbn [negb andb].
  unwrap.
  destruct (Z.le_gt_cases (size needle) (size haystack)) as [Hle|Hgt].
  - rewrite (find_last_loop_spec
               (Z.to_nat (size haystack - size needle + 1))) by lia.
    destruct (last_at _ _ _); reflexivity.
  - replace (Z.to_nat (size haystack - size needle + 1)) with O by lia.
    cbn [find_last_loop last_at].
    destruct (Z.leb_spec (data haystack)
                (data haystack + (size haystack - size needle))); [lia|].
    reflexivity.
Qed.

End Search.

(** X20. [strview_find_first] on valid views returns either a view of the
    needle's size inside the haystack that matches the needle, no earlier
    position of the haystack matching, or the Invalid view when no
    position of the haystack matches. *)
Theorem strview_find_first_spec (m : mem) (haystack needle : strview_t) :
  valid_view haystack -> valid_view needle ->
  exists r,
    strview_find_first m haystack needle = Some r /\
    ((r = STRVIEW_INVALID /\
      forall p, data haystack <= p ->
        p + size needle <= data haystack + size haystack ->
        strview_is_match m {| data := p; size := size needle |} needle = false)
     \/
     (strview_is_valid r = true /\ size r = size needle /\
      span_inside r haystack /\
      strview_is_match m r needle = true /\
      forall p, data haystack <= p < data r ->
        strview_is_match m {| data := p; size := size needle |} needle = false)).
Proof.
  intros Hh Hn. rewrite (find_first_result m needle haystack Hh Hn).
  eexists. split; [reflexivity|].
  destruct Hh as [Hd Hs]. pose proof Hn as [Hnd Hns].
  destruct (first_at _ _ _) as [q|] eqn:E.
  - right. apply first_at_some in E. destruct E as (Hr & Hq & Hb).
    unfold strview_is_valid, span_inside. cbn [data size].
    rewrite null_test_valid by lia.
    repeat split; try lia.
    + now rewrite occurs_at_is_match.
    + intros p Hp. rewrite occurs_at_is_match by assumption. apply Hb. lia.
  - left. split; [reflexivity|]. intros p Hp1 Hp2.
    rewrite occurs_at_is_match by assumption.
    apply (first_at_none _ _ _ E). lia.
Qed.

Lemma strview_find_first_spec_witness :
  exists r,
    strview_find_first date_mem {| data := 100; size := 10 |}
      {| data := 200; size := 1 |} = Some r /\
    ((r = STRVIEW_INVALID /\
      forall p, 100 <= p -> p + 1 <= 100 + 10 ->
        strview_is_match date_mem {| data := p; size := 1 |}
          {| data := 200; size := 1 |} = false)
     \/
     (strview_is_valid r = true /\ size r = 1 /\
      span_inside r {| data := 100; size := 10 |} /\
      strview_is_match date_mem r {| data := 200; size := 1 |} = true /\
      forall p, 100 <= p < data r ->
        strview_is_match date_mem {| data := p; size := 1 |}
          {| data := 200; size := 1 |} = false)).
Proof.
  apply (strview_find_first_spec date_mem {| data := 100; size := 10 |}
           {| data := 200; size := 1 |});
    unfold valid_view, INT_MAX; cbn; lia.
Defined.

(** X21. [strview_find_last] on valid views returns either a view of the
    needle's size inside the haystack that matches the needle, no later
    position of the haystack matching, or the Invalid view when no
    position of the haystack matches. *)
Theorem strview_find_last_spec (m : mem) (haystack needle : strview_t) :
  valid_view haystack -> valid_view needle ->
  exists r,
    strview_find_last m haystack needle = Some r /\
    ((r = STRVIEW_INVALID /\
      forall p, data haystack <= p ->
        p + size needle <= data haystack + size haystack ->
        strview_is_match m {| data := p; size := size needle |} needle = false)
     \/
     (strview_is_valid r = true /\ size r = size needle /\
      span_inside r haystack /\
      strview_is_match m r needle = true /\
      forall p, data r < p ->
        p + size needle <= data haystack + size haystack ->
        strview_is_match m {| data := p; size := size needle |} needle = false)).
Proof.
  intros Hh Hn. rewrite (find_last_result m needle haystack Hh Hn).
  eexists. split; [reflexivity|].
  destruct Hh as [Hd Hs]. pose proof Hn as [Hnd Hns].
  destruct (last_at _ _ _) as [q|] eqn:E.
  - right. apply last_at_some in E. destruct E as (Hr & Hq & Hb).
    unfold strview_is_valid, span_inside. cbn [data size].
    rewrite null_test_valid by lia.
    repeat split; try lia.
    + now rewrite occurs_at_is_match.
    + intros p Hp1 Hp2. rewrite occurs_at_is_match by assumption.
      apply Hb. lia.
  - left. split; [reflexivity|]. intros p Hp1 Hp2.
    rewrite occurs_at_is_match by assumption.
    apply (last_at_none _ _ _ E). lia.
Qed.

Lemma strview_find_last_spec_witness :
  exists r,
    strview_find_last date_mem {| data := 100; size := 10 |}
      {| data := 200; size := 1 |} = Some r /\
    ((r = STRVIEW_INVALID /\
      forall p, 100 <= p -> p + 1 <= 100 + 10 ->
        strview_is_match date_mem {| data := p; size := 1 |}
          {| data := 200; size := 1 |} = false)
     \/
     (strview_is_valid r = true /\ size r = 1 /\
      span_inside r {| data := 100; size := 10 |} /\
      strview_is_match date_mem r {| data := 200; size := 1 |} = true /\
      forall p, data r < p -> p + 1 <= 100 + 10 ->
        strview_is_match date_mem {| data := p; size := 1 |}
          {| data := 200; size := 1 |} = false)).
Proof.
  apply (strview_find_last_spec date_mem {| data := 100; size := 10 |}
           {| data := 200; size := 1 |});
    unfold valid_view, INT_MAX; cbn; lia.
Defined.

(** ** Splitting around a match *)

Lemma split_left_eq src pos :
  valid_view src -> valid_view pos ->
  data src <= data pos <= data src + size src ->
  strview_split_left (Some src) pos
  = ({| data := data src; size := data pos - data src |},
     Some {| data := data pos; size := data src + size src - data pos |}).
Proof.
  intros Hs Hp [Hlo Hhi]. unfold strview_split_left.
  rewrite (valid_view_is_valid _ Hs), (valid_view_is_valid _ Hp).
  destruct Hs as [Hs0 Hs1]. cbn [andb].
  destruct (Z.leb_spec (data src) (data pos)); [|lia].
  destruct (Z.leb_spec (data pos) (data src + size src)); [|lia].
  cbn [andb]. unwrap.
  rewrite split_index_spec by (try split; int_range). cbv zeta.
  destruct (Z.ltb_spec (data pos - data src) 0); [lia|].
  replace (Z.min (data pos - data src) (size src))
    with (data pos - data src) by lia.
  f_equal. f_equal. f_equal; lia.
Qed.

Lemma split_right_eq src pos :
  valid_view src -> valid_view pos -> span_inside pos src ->
  strview_split_right (Some src) pos
  = ({| data := data pos + size pos;
        size := data src + size src - (data pos + size pos) |},
     Some {| data := data src; size := data pos + size pos - data src |}).
Proof.
  intros Hs Hp [Hlo Hhi]. unfold strview_split_right.
  rewrite (valid_view_is_valid _ Hs), (valid_view_is_valid _ Hp).
  destruct Hs as [Hs0 Hs1], Hp as [Hp0 Hp1]. cbn [andb].
  destruct (Z.leb_spec (data src) (data pos + size pos)); [|lia].
  destruct (Z.leb_spec (data pos + size pos) (data src + size src)); [|lia].
  cbn [andb]. unwrap.
  rewrite split_index_spec by (try split; int_range). cbv zeta.
  destruct (Z.ltb_spec (data pos + size pos - data src) 0); [lia|].
  replace (Z.min (data pos + size pos - data src) (size src))
    with (data pos + size pos - data src) by lia.
  unfold strview_swap. f_equal. f_equal; lia.
Qed.

(** X22. A match located by [strview_find_first] or [strview_find_last]
    is always accepted by the splitters: [strview_split_left] at the match
    returns what precedes it and leaves a source that starts with the
    needle, and [strview_split_right] returns what follows the match and
    leaves the source up to the end of the match. *)
Theorem find_then_split (m : mem) (haystack needle pos : strview_t) :
  valid_view haystack -> valid_view needle ->
  strview_find_first m haystack needle = Some pos
  \/ strview_find_last m haystack needle = Some pos ->
  strview_is_valid pos = true ->
  let after_left :=
    {| data := data pos; size := data haystack + size haystack - data pos |} in
  strview_split_left (Some haystack) pos
  = ({| data := data haystack; size := data pos - data haystack |},
     Some after_left) /\
  strview_starts_with m after_left needle = true /\
  strview_split_right (Some haystack) pos
  = ({| data := data pos + size needle;
        size := data haystack + size haystack - (data pos + size needle) |},
     Some {| data := data haystack;
             size := data pos + size needle - data haystack |}).
Proof.
  intros Hh Hn Hfind Hvalid. cbv zeta.
  assert (F : size pos = size needle /\
              data haystack <= data pos /\
              data pos + size needle <= data haystack + size haystack /\
              occurs_at m needle (data pos) = true).
  { destruct Hfind as [Hf|Hf].
    - rewrite (find_first_result m needle haystack Hh Hn) in Hf.
      injection Hf as Hf.
      destruct (first_at _ _ _) as [q|] eqn:E;
        [|subst pos; discriminate Hvalid].
      apply first_at_some in E. destruct E as (Hr & Hq & _).
      destruct Hh, Hn. subst pos. cbn [data size]. repeat split; auto; lia.
    - rewrite (find_last_result m needle haystack Hh Hn) in Hf.
      injection Hf as Hf.
      destruct (last_at _ _ _) as [q|] eqn:E;
        [|subst pos; discriminate Hvalid].
      apply last_at_some in E. destruct E as (Hr & Hq & _).
      destruct Hh, Hn. subst pos. cbn [data size]. repeat split; auto; lia. }
  destruct F as (Hsz & Hlo & Hhi & Hocc).
  assert (Hpos : valid_view pos).
  { destruct Hh as [Hd Hs], Hn as [_ Hns]. unfold valid_view. lia. }
  repeat split.
  - apply split_left_eq; auto. destruct Hn. lia.
  - unfold strview_starts_with. rewrite (valid_view_is_valid _ Hn).
    cbn [negb data size].
    destruct (Z.leb_spec (size needle) (data haystack + size haystack - data pos));
      [|lia].
    unfold occurs_at in Hocc. rewrite Hocc. now rewrite orb_true_r.
  - rewrite split_right_eq; auto; [|unfold span_inside; lia].
    now rewrite Hsz.
Qed.

Lemma find_then_split_witness :
  strview_split_left (Some {| data := 100; size := 10 |})
    {| data := 104; size := 1 |}
  = ({| data := 100; size := 104 - 100 |},
     Some {| data := 104; size := 100 + 10 - 104 |}) /\
  strview_starts_with date_mem {| data := 104; size := 100 + 10 - 104 |}
    {| data := 200; size := 1 |} = true /\
  strview_split_right (Some {| data := 100; size := 10 |})
    {| data := 104; size := 1 |}
  = ({| data := 104 + 1; size := 100 + 10 - (104 + 1) |},
     Some {| data := 100; size := 104 + 1 - 100 |}).
Proof.
  apply (find_then_split date_mem {| data := 100; size := 10 |}
           {| data := 200; size := 1 |} {| data := 104; size := 1 |}).
  - unfold valid_view, INT_MAX. cbn. lia.
  - unfold valid_view, INT_MAX. cbn. lia.
  - left. reflexivity.
  - reflexivity.
Defined.

(** ** Splitting at the last delimiter *)

Section LastDelimiterScan.

Variable m : mem.
Variable d : strview_t.
Hypothesis d_size : 0 <= size d.

Lemma last_delimeter_loop_spec : forall n p,
  last_delimeter_loop (S n) m p (p - Z.of_nat n) d CASE_SENSETIVE
  = Some match last_at (fun q => is_delimiter m d (m q)) p n with
         | Some q => (true, q)
         | None => (false, p - Z.of_nat n)
         end.
Proof.
  induction n as [|n IH]; intros p.
  - cbn. replace (p - 0) with p by lia. now rewrite Z.eqb_refl.
  - cbn [last_delimeter_loop last_at].
    destruct (Z.eqb_spec p (p - Z.of_nat (S n))); [lia|].
    rewrite contains_char_spec by assumption.
    destruct (is_delimiter m d (m p)); [reflexivity|].
    replace (p - Z.of_nat (S n)) with (p - 1 - Z.of_nat n) by lia.
    apply IH.
Qed.

End LastDelimiterScan.

Lemma last_at_absent f n p :
  (forall j, p - Z.of_nat n < j <= p -> f j = false) -> last_at f p n = None.
Proof.
  intros Hb. destruct (last_at f p n) as [q|] eqn:E; [|reflexivity].
  apply last_at_some in E. destruct E as (Hr & Hq & _).
  rewrite Hb in Hq by lia. discriminate.
Qed.

Lemma last_at_last f n p q :
  p - Z.of_nat n < q <= p -> f q = true ->
  (forall j, q < j <= p -> f j = false) ->
  last_at f p n = Some q.
Proof.
  intros Hq Hf Hb. destruct (last_at f p n) as [q'|] eqn:E.
  - apply last_at_some in E. destruct E as (Hr & Hq' & Hb').
    f_equal. destruct (Z.lt_trichotomy q' q) as [Hlt|[Heq|Hgt]]; [|assumption|].
    + rewrite Hb' in Hf by lia. discriminate.
    + rewrite Hb in Hq' by lia. discriminate.
  - rewrite (last_at_none _ _ _ E q) in Hf by lia. discriminate.
Qed.

(** What [split_last_delimeter] computes on well-formed views, in terms of
    the reference scan. *)
Lemma split_last_delimeter_scan m sv d :
  wf_view sv -> wf_view d ->
  split_last_delimeter m sv d CASE_SENSETIVE =
  Some match last_at (fun q => is_delimiter m d (m q))
               (data sv + size sv - 1) (Z.to_nat (size sv)) with
       | Some q =>
           ({| data := if data sv + size sv - q - 1 =? 0 then q else q + 1;
               size := data sv + size sv - q - 1 |},
            {| data := data sv; size := q - data sv |})
       | None => (sv, STRVIEW_INVALID)
       end.
Proof.
  intros Hsv Hd. unfold split_last_delimeter.
  destruct Hsv as [->|[Hp Hs]]; [reflexivity|].
  rewrite (null_test_valid _ Hp). cbn [negb andb].
  destruct (Z.eqb_spec (size sv) 0) as [Hz|Hnz]; cbn [negb andb].
  { rewrite Hz. reflexivity. }
  destruct Hd as [->|[Hdp Hds]].
  - cbn [STRVIEW_INVALID data ptr_is_null negb].
    rewrite last_at_absent; [reflexivity|]. intros j _. reflexivity.
  - rewrite (null_test_valid _ Hdp). cbn [negb]. unwrap.
    replace (data sv - 1)
      with (data sv + (size sv - 1) - Z.of_nat (Z.to_nat (size sv))) by lia.
    rewrite last_delimeter_loop_spec by lia.
    replace (data sv + (size sv - 1)) with (data sv + size sv - 1) by lia.
    destruct (last_at _ _ _) as [q|] eqn:E; [|reflexivity].
    apply last_at_some in E. destruct E as (Hr & _).
    unwrap. do 3 f_equal; lia.
Qed.

(** X23. Splitting at the last delimiter.  When the last character of
    [src] that belongs to [d] is at offset [i], the call returns the bytes
    strictly after it, as a valid view ([src[i+1:]], or a zero-length valid
    view when the delimiter was the last character), and leaves [src[0:i]]
    in the source.  When no character of [src] belongs to [d], the whole
    of [src] is returned and the source is set Invalid. *)
Theorem split_last_delimeter_spec (m : mem) (src d : strview_t) :
  wf_view src -> wf_view d ->
  (forall i,
     0 <= i < size src ->
     is_delimiter m d (m (data src + i)) = true ->
     (forall j, i < j < size src ->
        is_delimiter m d (m (data src + j)) = false) ->
     let returned :=
       {| data := if i + 1 =? size src then data src + i else data src + i + 1;
          size := size src - (i + 1) |} in
     strview_split_last_delimeter m (Some src) d
     = Some (returned, Some {| data := data src; size := i |}) /\
     strview_is_valid returned = true /\
     content m returned = skipn (Z.to_nat (i + 1)) (content m src)) /\
  ((forall j, 0 <= j < size src ->
      is_delimiter m d (m (data src + j)) = false) ->
   strview_split_last_delimeter m (Some src) d
   = Some (src, Some STRVIEW_INVALID)).
Proof.
  intros Hsrc Hd. unfold strview_split_last_delimeter.
  rewrite split_last_delimeter_scan by assumption.
  pose proof (wf_view_size _ Hsrc) as Hsz.
  split.
  - intros i Hi Hdel Hafter. cbv zeta.
    rewrite (last_at_last _ _ _ (data src + i)); auto; try lia.
    2:{ intros j Hj. replace j with (data src + (j - data src)) by lia.
        apply Hafter. lia. }
    cbn [fst snd].
    destruct Hsrc as [->|[Hp Hs]]; [cbn in Hi; lia|].
    replace (data src + i - data src) with i by lia.
    replace (data src + size src - (data src + i) - 1)
      with (size src - (i + 1)) by lia.
    assert (Et : (size src - (i + 1) =? 0) = (i + 1 =? size src)).
    { destruct (Z.eqb_spec (size src - (i + 1)) 0),
        (Z.eqb_spec (i + 1) (size src)); auto; lia. }
    rewrite Et. repeat split.
    + unfold strview_is_valid. cbn [data].
      rewrite null_test_valid; [reflexivity|].
      destruct (i + 1 =? size src); lia.
    + destruct src as [p s]; cbn [data size] in *.
      unfold content at 2. cbn [data size]. rewrite read_skipn.
      unfold content. cbn [data size].
      destruct (Z.eqb_spec (i + 1) s) as [->|Hne].
      * rewrite Z.sub_diag, Nat.sub_diag. reflexivity.
      * f_equal; lia.
  - intros Hnone.
    rewrite last_at_absent; [reflexivity|].
    intros j Hj. replace j with (data src + (j - data src)) by lia.
    apply Hnone. lia.
Qed.

Lemma split_last_delimeter_spec_witness :
  strview_split_last_delimeter date_mem (Some {| data := 100; size := 10 |})
    {| data := 200; size := 1 |}
  = Some ({| data := 108; size := 2 |}, Some {| data := 100; size := 7 |}).
Proof.
  assert (Hsrc : wf_view {| data := 100; size := 10 |}).
  { right. unfold valid_view, INT_MAX. cbn. lia. }
  assert (Hd : wf_view {| data := 200; size := 1 |}).
  { right. unfold valid_view, INT_MAX. cbn. lia. }
  destruct (split_last_delimeter_spec date_mem _ _ Hsrc Hd) as [Hfound _].
  destruct (Hfound 7) as [E _].
  - cbn. lia.
  - reflexivity.
  - intros j Hj. cbn [size data] in *.
    assert (C : j = 8 \/ j = 9) by lia.
    destruct C as [->| ->]; reflexivity.
  - exact E.
Defined.

(** ** Lines *)

Lemma pop_src_eq m sv :
  0 < size sv <= INT_MAX ->
  pop_src m sv = {| data := data sv + 1; size := size sv - 1 |}.
Proof.
  intros Hs. unfold pop_src, strview_pop_first_char.
  destruct (Z.eqb_spec (size sv) 0); [lia|]. cbn [negb].
  rewrite split_index_spec by int_range. cbv zeta.
  change (1 <? 0) with false. cbv iota.
  replace (Z.min 1 (size sv)) with 1 by lia. reflexivity.
Qed.

(** The terminator search of [strview_split_line] on a source whose first
    CR or LF is at offset [i]. *)
Lemma split_first_terminator m lit src i :
  literal_crlf m lit -> valid_view src ->
  0 <= i < size src ->
  m (data src + i) = CR \/ m (data src + i) = LF ->
  (forall j, 0 <= j < i ->
     m (data src + j) <> CR /\ m (data src + j) <> LF) ->
  split_first_delimeter m src {| data := lit; size := 2 |} CASE_SENSETIVE
  = Some ({| data := data src; size := i |},
          {| data := if i + 1 =? size src then data src + i
                     else data src + i + 1;
             size := size src - (i + 1) |}).
Proof.
  intros Hlit Hsrc Hi Hterm Hbefore.
  assert (Hd : wf_view {| data := lit; size := 2 |}).
  { right. destruct Hlit as [Hp _]. unfold valid_view, INT_MAX. cbn. lia. }
  rewrite split_first_delimeter_scan by (auto; right; exact Hsrc).
  rewrite (first_delimiter_at_first m _ _ _ i); try lia.
  - replace (data src + i - data src) with i by lia.
    replace (size src - i - 1) with (size src - (i + 1)) by lia.
    assert (Et : (size src - (i + 1) =? 0) = (i + 1 =? size src)).
    { destruct (Z.eqb_spec (size src - (i + 1)) 0),
        (Z.eqb_spec (i + 1) (size src)); auto; lia. }
    now rewrite Et.
  - rewrite (is_delimiter_crlf m lit _ Hlit).
    destruct Hterm as [->| ->]; reflexivity.
  - intros j Hj. rewrite (is_delimiter_crlf m lit _ Hlit).
    destruct (Hbefore j Hj) as [H1 H2].
    destruct (Z.eqb_spec CR (m (data src + j))); [congruence|].
    destruct (Z.eqb_spec LF (m (data src + j))); [congruence|].
    reflexivity.
Qed.

(** X24. [strview_split_line] when a terminator is found.  With [skip]
    the one byte consumed first when [*eol] carries a pending half that the
    first byte completes (0 otherwise), and the first CR or LF from there
    at offset [i]: the line returned is [src[skip:i]]; a terminator
    followed by its complementary byte is consumed as one and [*eol]
    becomes 0; otherwise one byte is consumed and [*eol] becomes that
    byte. *)
Theorem strview_split_line_found (m : mem) (lit : ptr) (sv : strview_t)
    (eol : option char) (i : Z) :
  literal_crlf m lit -> valid_view sv ->
  let pending :=
    match eol with
    | Some e => negb (e =? 0) && (e + m (data sv) =? CR + LF)
    | None => false
    end in
  let skip := if pending then 1 else 0 in
  skip <= i < size sv ->
  m (data sv + i) = CR \/ m (data sv + i) = LF ->
  (forall j, skip <= j < i ->
     m (data sv + j) <> CR /\ m (data sv + j) <> LF) ->
  let paired :=
    (i + 1 <? size sv) && (m (data sv + i) + m (data sv + i + 1) =? CR + LF) in
  strview_split_line m lit (Some sv) eol
  = Some ({| data := data sv + skip; size := i - skip |},
          Some (if paired
                then {| data := data sv + i + 2; size := size sv - (i + 2) |}
                else {| data := if i + 1 =? size sv then data sv + i
                                else data sv + i + 1;
                        size := size sv - (i + 1) |}),
          match eol with
          | Some _ => Some (if paired then 0 else m (data sv + i))
          | None => None
          end).
Proof.
  intros Hlit Hsv pending skip Hi Hterm Hbefore paired.
  pose proof Hsv as [Hd Hs].
  assert (Hskip : 0 <= skip <= 1) by (subst skip; destruct pending; lia).
  set (src := {| data := data sv + skip; size := size sv - skip |}).
  assert (Hsrc : valid_view src) by (subst src; unfold valid_view; cbn; lia).
  assert (Hscan : split_first_delimeter m src {| data := lit; size := 2 |}
                    CASE_SENSETIVE
                  = Some ({| data := data sv + skip; size := i - skip |},
                          {| data := if i + 1 =? size sv then data sv + i
                                     else data sv + i + 1;
                             size := size sv - (i + 1) |})).
  { rewrite (split_first_terminator m lit src (i - skip)); auto;
      subst src; cbn [data size].
    - do 3 f_equal; [|lia].
      replace (i - skip + 1 =? size sv - skip) with (i + 1 =? size sv)
        by (destruct (Z.eqb_spec (i + 1) (size sv)),
              (Z.eqb_spec (i - skip + 1) (size sv - skip)); auto; lia).
      destruct (i + 1 =? size sv); lia.
    - lia.
    - now replace (data sv + skip + (i - skip)) with (data sv + i) by lia.
    - intros j Hj.
      replace (data sv + skip + j) with (data sv + (skip + j)) by lia.
      apply Hbefore. lia. }
  assert (Hentry :
    match eol with
    | Some e =>
        if negb (e =? 0) && (e + m (data sv) =? CR + LF)
        then pop_src m sv else sv
    | None => sv
    end = src).
  { subst src skip pending. destruct eol as [e|].
    - destruct (negb (e =? 0) && (e + m (data sv) =? CR + LF)).
      + apply pop_src_eq. lia.
      + apply view_ext; cbn; lia.
    - apply view_ext; cbn; lia. }
  assert (Htail :
    forall s0, s0 = src ->
    (do delimiters <- cstr 3 m lit;
     do rs <- strview_split_first_delimeter m (Some s0) delimiters;
     let result := fst rs in
     let src := match snd rs with Some s => s | None => s0 end in
     if strview_is_valid src then
       let e := m (data result + size result) in
       let '(src, e) :=
         if e + m (data src) =? CR + LF then (pop_src m src, 0)
         else (src, e) in
       Some (result, Some src,
             match eol with Some _ => Some e | None => None end)
     else Some (STRVIEW_INVALID, Some result, eol))
    = Some ({| data := data sv + skip; size := i - skip |},
          Some (if paired
                then {| data := data sv + i + 2; size := size sv - (i + 2) |}
                else {| data := if i + 1 =? size sv then data sv + i
                                else data sv + i + 1;
                        size := size sv - (i + 1) |}),
          match eol with
          | Some _ => Some (if paired then 0 else m (data sv + i))
          | None => None
          end)).
  { intros s0 ->. rewrite (cstr_literal_crlf m lit Hlit).
    unfold strview_split_first_delimeter. rewrite Hscan.
    cbv zeta. cbn [fst snd data size].
    replace (data sv + skip + (i - skip)) with (data sv + i) by lia.
    unfold strview_is_valid. cbn [data].
    rewrite null_test_valid by (destruct (i + 1 =? size sv); lia).
    cbn [negb]. subst paired.
    destruct (Z.eqb_spec (i + 1) (size sv)) as [Hlast|Hmore].
    - destruct (Z.ltb_spec (i + 1) (size sv)); [lia|]. cbn [andb].
      destruct (Z.eqb_spec (m (data sv + i) + m (data sv + i)) (CR + LF))
        as [Hpair|_]; [|reflexivity].
      exfalso. unfold CR, LF in *.
      destruct Hterm as [Ht|Ht]; rewrite Ht in Hpair; lia.
    - destruct (Z.ltb_spec (i + 1) (size sv)); [|lia]. cbn [andb].
      destruct (m (data sv + i) + m (data sv + i + 1) =? CR + LF);
        [|reflexivity].
      rewrite pop_src_eq by (cbn [size]; lia). cbn [data size].
      replace (data sv + i + 1 + 1) with (data sv + i + 2) by lia.
      replace (size sv - (i + 1) - 1) with (size sv - (i + 2)) by lia.
      reflexivity. }
  unfold strview_split_line. cbv zeta.
  destruct (Z.eqb_spec (size sv) 0); [lia|].
  apply Htail. exact Hentry.
Qed.

Lemma strview_split_line_found_witness :
  strview_split_line lines_mem 200 (Some {| data := 106; size := 12 |})
    (Some CR)
  = Some ({| data := 107; size := 5 |}, Some {| data := 113; size := 5 |},
          Some CR).
Proof.
  apply (strview_split_line_found lines_mem 200 {| data := 106; size := 12 |}
           (Some CR) 6).
  - unfold literal_crlf. cbn. repeat split; lia.
  - unfold valid_view, INT_MAX. cbn. lia.
  - vm_compute. split; [discriminate | reflexivity].
  - left. reflexivity.
  - intros j Hj. change (1 <= j < 6) in Hj.
    assert (C : j = 1 \/ j = 2 \/ j = 3 \/ j = 4 \/ j = 5) by lia.
    destruct C as [->|[->|[->|[->| ->]]]]; vm_compute; split; discriminate.
Defined.

(** ** Conversion to a C string *)

Lemma read_ext m1 m2 : forall n p q,
  (forall j, 0 <= j < Z.of_nat n -> m1 (p + j) = m2 (q + j)) ->
  read m1 p n = read m2 q n.
Proof.
  induction n as [|n IH]; intros p q H; [reflexivity|].
  cbn [read]. f_equal.
  - specialize (H 0). rewrite !Z.add_0_r in H. apply H. lia.
  - apply IH. intros j Hj.
    replace (p + 1 + j) with (p + (j + 1)) by lia.
    replace (q + 1 + j) with (q + (j + 1)) by lia.
    apply H. lia.
Qed.

Lemma strlen_spec m : forall n fuel p,
  (n < fuel)%nat ->
  (forall j, 0 <= j < Z.of_nat n -> m (p + j) <> 0) ->
  m (p + Z.of_nat n) = 0 ->
  strlen fuel m p = Some (Z.of_nat n).
Proof.
  induction n as [|n IH]; intros [|fuel] p Hf Hnz Hz; try lia;
    cbn [strlen].
  - rewrite Z.add_0_r in Hz. now rewrite Hz.
  - destruct (Z.eqb_spec (m p) 0) as [E|_].
    + exfalso. apply (Hnz 0); [lia|]. now rewrite Z.add_0_r.
    + rewrite (IH fuel (p + 1)).
      * f_equal. lia.
      * lia.
      * intros j Hj. replace (p + 1 + j) with (p + (j + 1)) by lia.
        apply Hnz. lia.
      * replace (p + 1 + Z.of_nat n) with (p + Z.of_nat (S n)) by lia.
        exact Hz.
Qed.

(** The storage left by [strview_to_cstr] for a destination of at least
    one byte. *)
Lemma to_cstr_storage m dst dst_size v :
  0 <= size v -> 0 < dst -> 0 < dst_size < 18446744073709551616 ->
  strview_to_cstr m dst dst_size v
  = (dst,
     store (memcpy m dst (data v) (Z.min (dst_size - 1) (size v)))
       (dst + Z.min (dst_size - 1) (size v)) 0).
Proof.
  intros Hs Hd Hn. unfold strview_to_cstr.
  destruct (Z.eqb_spec dst_size 0); [lia|].
  rewrite (null_test_valid _ Hd). cbn [negb andb].
  rewrite Z.mod_small by lia.
  destruct (Z.ltb_spec (size v) 0); [lia|].
  destruct (Z.ltb_spec (dst_size - 1) (size v)).
  - now replace (Z.min (dst_size - 1) (size v)) with (dst_size - 1) by lia.
  - now replace (Z.min (dst_size - 1) (size v)) with (size v) by lia.
Qed.

(** X25. [strview_to_cstr] into a destination of [dst_size >= 1] bytes
    copies the first [min(dst_size - 1, size)] characters of the view,
    writes a terminating 0 after them, returns the destination, and leaves
    every byte outside the destination as it was. *)
Theorem strview_to_cstr_spec (m : mem) (dst dst_size : Z) (v : strview_t) :
  wf_view v -> 0 < dst -> 0 < dst_size < 18446744073709551616 ->
  dst + dst_size <= data v \/ data v + size v <= dst ->
  let copy := Z.min (dst_size - 1) (size v) in
  let m' := snd (strview_to_cstr m dst dst_size v) in
  fst (strview_to_cstr m dst dst_size v) = dst /\
  read m' dst (Z.to_nat copy) = firstn (Z.to_nat copy) (content m v) /\
  m' (dst + copy) = 0 /\
  (forall a, a < dst \/ dst + dst_size <= a -> m' a = m a).
Proof.
  intros Hv Hd Hn _. cbv zeta. pose proof (wf_view_size _ Hv) as Hs.
  rewrite to_cstr_storage by lia. cbn [fst snd].
  set (copy := Z.min (dst_size - 1) (size v)).
  repeat split.
  - unfold content. rewrite read_firstn by lia.
    apply read_ext. intros j Hj. unfold store, memcpy.
    destruct (Z.eqb_spec (dst + j) (dst + copy)); [lia|].
    destruct (Z.leb_spec dst (dst + j)); [|lia].
    destruct (Z.ltb_spec (dst + j) (dst + copy)); [|lia].
    cbn [andb]. f_equal. lia.
  - unfold store. now rewrite Z.eqb_refl.
  - intros a Ha. unfold store, memcpy.
    destruct (Z.eqb_spec a (dst + copy)); [lia|].
    destruct (Z.leb_spec dst a), (Z.ltb_spec a (dst + copy));
      cbn [andb]; try reflexivity; lia.
Qed.

Lemma strview_to_cstr_spec_witness :
  fst (strview_to_cstr date_mem 300 5 {| data := 100; size := 10 |}) = 300 /\
  read (snd (strview_to_cstr date_mem 300 5 {| data := 100; size := 10 |}))
    300 (Z.to_nat 4)
  = firstn (Z.to_nat 4) (content date_mem {| data := 100; size := 10 |}) /\
  snd (strview_to_cstr date_mem 300 5 {| data := 100; size := 10 |}) (300 + 4)
  = 0 /\
  (forall a, a < 300 \/ 300 + 5 <= a ->
     snd (strview_to_cstr date_mem 300 5 {| data := 100; size := 10 |}) a
     = date_mem a).
Proof.
  apply (strview_to_cstr_spec date_mem 300 5 {| data := 100; size := 10 |}).
  - right. unfold valid_view, INT_MAX. cbn. lia.
  - lia.
  - lia.
  - right. cbn. lia.
Defined.

(** X26. Round trip through a C string: when the destination has room for
    the whole view and its terminator and the view holds no 0 byte,
    [cstr] of the string written by [strview_to_cstr] is a view of the
    same size at the destination with the same content. *)
Theorem to_cstr_cstr_roundtrip (m : mem) (dst dst_size : Z) (v : strview_t)
    (fuel : nat) :
  wf_view v -> 0 < dst -> size v < dst_size < 18446744073709551616 ->
  dst + dst_size <= data v \/ data v + size v <= dst ->
  (forall j, 0 <= j < size v -> m (data v + j) <> 0) ->
  (Z.to_nat (size v) < fuel)%nat ->
  let m' := snd (strview_to_cstr m dst dst_size v) in
  cstr fuel m' (fst (strview_to_cstr m dst dst_size v))
  = Some {| data := dst; size := size v |} /\
  content m' {| data := dst; size := size v |} = content m v.
Proof.
  intros Hv Hd Hn _ Hnz Hfuel. cbv zeta.
  pose proof (wf_view_size _ Hv) as Hs.
  rewrite to_cstr_storage by lia. cbn [fst snd].
  replace (Z.min (dst_size - 1) (size v)) with (size v) by lia.
  assert (Hcopy : forall j, 0 <= j < size v ->
            store (memcpy m dst (data v) (size v)) (dst + size v) 0 (dst + j)
            = m (data v + j)).
  { intros j Hj. unfold store, memcpy.
    destruct (Z.eqb_spec (dst + j) (dst + size v)); [lia|].
    destruct (Z.leb_spec dst (dst + j)); [|lia].
    destruct (Z.ltb_spec (dst + j) (dst + size v)); [|lia].
    cbn [andb]. f_equal. lia. }
  split.
  - unfold cstr. rewrite (null_test_valid _ Hd).
    rewrite (strlen_spec _ (Z.to_nat (size v))).
    + now rewrite Z2Nat.id by lia.
    + exact Hfuel.
    + intros j Hj. rewrite Hcopy by lia. apply Hnz. lia.
    + rewrite Z2Nat.id by lia. unfold store. now rewrite Z.eqb_refl.
  - unfold content. cbn [data size]. apply read_ext.
    intros j Hj. apply Hcopy. lia.
Qed.

Lemma to_cstr_cstr_roundtrip_witness :
  cstr 11 (snd (strview_to_cstr date_mem 300 20 {| data := 100; size := 10 |}))
    (fst (strview_to_cstr date_mem 300 20 {| data := 100; size := 10 |}))
  = Some {| data := 300; size := 10 |} /\
  content (snd (strview_to_cstr date_mem 300 20 {| data := 100; size := 10 |}))
    {| data := 300; size := 10 |}
  = content date_mem {| data := 100; size := 10 |}.
Proof.
  apply (to_cstr_cstr_roundtrip date_mem 300 20 {| data := 100; size := 10 |}
           11).
  - right. unfold valid_view, INT_MAX. cbn. lia.
  - lia.
  - cbn. lia.
  - right. cbn. lia.
  - intros j Hj. cbn [data size] in *.
    assert (C : j = 0 \/ j = 1 \/ j = 2 \/ j = 3 \/ j = 4 \/ j = 5 \/ j = 6
                \/ j = 7 \/ j = 8 \/ j = 9) by lia.
    destruct C as [->|[->|[->|[->|[->|[->|[->|[->|[->| ->]]]]]]]]];
      vm_compute; discriminate.
  - cbn. lia.
Defined.

(** ** Progress of the delimiter splitter, and search corollaries *)



(** X28. [strview_contains] on valid views answers, and it answers true
    exactly when the needle's bytes stand at some position of the
    haystack. *)
Theorem strview_contains_iff (m : mem) (haystack needle : strview_t) :
  valid_view haystack -> valid_view needle ->
  exists b,
    strview_contains m haystack needle = Some b /\
    (b = true <->
     exists p,
       data haystack <= p /\
       p + size needle <= data haystack + size haystack /\
       strview_is_match m {| data := p; size := size needle |} needle = true).
Proof.
  intros Hh Hn. unfold strview_contains.
  rewrite (find_first_result m needle haystack Hh Hn).
  eexists. split; [reflexivity|].
  destruct Hh as [Hd Hs]. pose proof Hn as [Hnd Hns].
  destruct (first_at _ _ _) as [q|] eqn:E.
  - apply first_at_some in E. destruct E as (Hr & Hq & _).
    unfold strview_is_valid. cbn [data].
    rewrite null_test_valid by lia. split; [|reflexivity].
    intros _. exists q. rewrite occurs_at_is_match by assumption.
    repeat split; auto; lia.
  - split; [discriminate|]. intros (p & Hp1 & Hp2 & Hm). exfalso.
    rewrite occurs_at_is_match in Hm by assumption.
    rewrite (first_at_none _ _ _ E p) in Hm by lia. discriminate.
Qed.

Lemma strview_contains_iff_witness :
  exists b,
    strview_contains date_mem {| data := 100; size := 10 |}
      {| data := 200; size := 1 |} = Some b /\
    (b = true <->
     exists p,
       100 <= p /\ p + 1 <= 100 + 10 /\
       strview_is_match date_mem {| data := p; size := 1 |}
         {| data := 200; size := 1 |} = true).
Proof.
  apply (strview_contains_iff date_mem {| data := 100; size := 10 |}
           {| data := 200; size := 1 |});
    unfold valid_view, INT_MAX; cbn; lia.
Defined.

(** X29. A prefix is the first occurrence: when a valid view starts with
    a valid needle, [strview_find_first] returns the needle-sized view at
    the start of the haystack. *)
Theorem starts_with_find_first (m : mem) (haystack needle : strview_t) :
  valid_view haystack -> valid_view needle ->
  strview_starts_with m haystack needle = true ->
  strview_find_first m haystack needle
  = Some {| data := data haystack; size := size needle |}.
Proof.
  intros Hh Hn Hsw. rewrite (find_first_result m needle haystack Hh Hn).
  unfold strview_starts_with in Hsw.
  rewrite (valid_view_is_valid _ Hn) in Hsw. cbn [negb] in Hsw.
  apply andb_true_iff in Hsw. destruct Hsw as [Hle Hm].
  apply Z.leb_le in Hle.
  assert (Hocc : occurs_at m needle (data haystack) = true).
  { unfold occurs_at. apply orb_true_iff in Hm. destruct Hm as [Hm|Hm].
    - apply Z.eqb_eq in Hm. rewrite Hm. apply Z.eqb_eq.
      now apply memcmp_zero_bytes.
    - exact Hm. }
  replace (Z.to_nat (size haystack - size needle + 1))
    with (S (Z.to_nat (size haystack - size needle))) by lia.
  cbn [first_at]. now rewrite Hocc.
Qed.

Lemma starts_with_find_first_witness :
  strview_find_first date_mem {| data := 100; size := 10 |}
    {| data := 100; size := 4 |}
  = Some {| data := 100; size := 4 |}.
Proof.
  apply (starts_with_find_first date_mem {| data := 100; size := 10 |}
           {| data := 100; size := 4 |}).
  - unfold valid_view, INT_MAX. cbn. lia.
  - unfold valid_view, INT_MAX. cbn. lia.
  - reflexivity.
Defined.

(** ** Case-insensitive delimiters *)

Lemma toupper_eq_nonletter x c :
  ~ (65 <= x <= 90) -> ~ (97 <= x <= 122) ->
  (toupper x =? toupper c) = (x =? c).
Proof.
  intros Hu Hl. unfold toupper.
  destruct (Z.leb_spec 97 x), (Z.leb_spec x 122); cbn [andb]; try lia;
    destruct (Z.leb_spec 97 c), (Z.leb_spec c 122); cbn [andb];
    destruct (Z.eqb_spec x (c - 32)), (Z.eqb_spec x c); auto; lia.
Qed.

Section NoCase.

Variable m : mem.
Variable d : strview_t.
Hypothesis d_size : 0 <= size d.
Hypothesis d_no_letters : forall j,
  0 <= j < size d ->
  ~ (65 <= m (data d + j) <= 90) /\ ~ (97 <= m (data d + j) <= 122).

Lemma contains_char_loop_nocase c : forall n p,
  (forall j, 0 <= j < Z.of_nat n ->
     ~ (65 <= m (p + j) <= 90) /\ ~ (97 <= m (p + j) <= 122)) ->
  contains_char_loop (S n) m p (p + Z.of_nat n) c NOT_CASE_SENSETIVE
  = contains_char_loop (S n) m p (p + Z.of_nat n) c CASE_SENSETIVE.
Proof.
  induction n as [|n IH]; intros p H.
  - cbn. replace (p + 0) with p by lia. now rewrite Z.eqb_refl.
  - cbn [contains_char_loop NOT_CASE_SENSETIVE CASE_SENSETIVE].
    destruct (Z.eqb_spec p (p + Z.of_nat (S n))); [lia|].
    destruct (H 0) as [Hu Hl]; [lia|]. rewrite Z.add_0_r in Hu, Hl.
    rewrite (toupper_eq_nonletter _ c Hu Hl).
    destruct (m p =? c); [reflexivity|].
    replace (p + Z.of_nat (S n)) with (p + 1 + Z.of_nat n) by lia.
    apply IH. intros j Hj.
    replace (p + 1 + j) with (p + (j + 1)) by lia. apply H. lia.
Qed.

Lemma contains_char_nocase c :
  contains_char m d c NOT_CASE_SENSETIVE = contains_char m d c CASE_SENSETIVE.
Proof.
  unfold contains_char.
  replace (data d + size d) with (data d + Z.of_nat (Z.to_nat (size d)))
    by lia.
  apply contains_char_loop_nocase. intros j Hj. apply d_no_letters. lia.
Qed.

Lemma first_delimeter_loop_nocase : forall fuel p e,
  first_delimeter_loop fuel m p e d NOT_CASE_SENSETIVE
  = first_delimeter_loop fuel m p e d CASE_SENSETIVE.
Proof.
  induction fuel as [|fuel IH]; intros p e; [reflexivity|].
  cbn [first_delimeter_loop]. rewrite contains_char_nocase, IH. reflexivity.
Qed.

Lemma last_delimeter_loop_nocase : forall fuel p e,
  last_delimeter_loop fuel m p e d NOT_CASE_SENSETIVE
  = last_delimeter_loop fuel m p e d CASE_SENSETIVE.
Proof.
  induction fuel as [|fuel IH]; intros p e; [reflexivity|].
  cbn [last_delimeter_loop]. rewrite contains_char_nocase, IH. reflexivity.
Qed.

End NoCase.

(** X30. For a delimiter set that holds no letters, the case-insensitive
    splitters return what the case-sensitive ones return, on every source. *)
Theorem nocase_splitters_without_letters (m : mem) (d : strview_t)
    (strview_ptr : option strview_t) :
  0 <= size d ->
  (forall j, 0 <= j < size d ->
     ~ (65 <= m (data d + j) <= 90) /\ ~ (97 <= m (data d + j) <= 122)) ->
  strview_split_first_delimiter_nocase m strview_ptr d
  = strview_split_first_delimeter m strview_ptr d /\
  strview_split_last_delimeter_nocase m strview_ptr d
  = strview_split_last_delimeter m strview_ptr d.
Proof.
  intros Hs Hd.
  unfold strview_split_first_delimiter_nocase, strview_split_first_delimeter,
    strview_split_last_delimeter_nocase, strview_split_last_delimeter,
    split_first_delimeter, split_last_delimeter.
  destruct strview_ptr as [sv|]; [|split; reflexivity].
  rewrite (first_delimeter_loop_nocase m d Hs Hd).
  rewrite (last_delimeter_loop_nocase m d Hs Hd).
  split; reflexivity.
Qed.

Lemma nocase_splitters_without_letters_witness :
  strview_split_first_delimiter_nocase date_mem
    (Some {| data := 100; size := 10 |}) {| data := 200; size := 1 |}
  = strview_split_first_delimeter date_mem
      (Some {| data := 100; size := 10 |}) {| data := 200; size := 1 |} /\
  strview_split_last_delimeter_nocase date_mem
    (Some {| data := 100; size := 10 |}) {| data := 200; size := 1 |}
  = strview_split_last_delimeter date_mem
      (Some {| data := 100; size := 10 |}) {| data := 200; size := 1 |}.
Proof.
  apply (nocase_splitters_without_letters date_mem
           {| data := 200; size := 1 |} (Some {| data := 100; size := 10 |})).
  - cbn. lia.
  - intros j Hj. cbn [data size] in *. replace j with 0 by lia.
    assert (E : date_mem (200 + 0) = 47) by reflexivity.
    rewrite E. lia.
Defined.
